(** * Tick & Tie auditor: field registry, extraction and reconciliation
      orchestration, export shaping.

    A shallow embedding of [utils.ts], [geminiService.ts], [types.ts] and the
    handlers of [App.tsx], followed by the properties proved about them.

    Conventions of the embedding:
    - a JavaScript string is a [string]; every character is one code unit,
      and the embedding covers the code units 0..255;
    - a JavaScript object used as a dictionary is a [gmap string _];
      a [Set<string>] is a [gset string];
    - [null] and [undefined] of an optional member are [None];
    - asynchronous handlers are run to completion, one at a time; what they
      do to the outside (remote calls, alerts, console output) is collected
      in a log of events. *)

From Stdlib Require Import Ascii ZArith.
From stdpp Require Import base option list strings gmap pretty.

Local Open Scope Z_scope.
Local Open Scope nat_scope.

(* ===================================================================== *)
(** ** JavaScript string primitives used by the sources                   *)
(* ===================================================================== *)

Module Js.

Definition chars (s : string) : list ascii := String.list_ascii_of_string s.
Definition str (l : list ascii) : string := String.string_of_list_ascii l.

Definition code (c : ascii) : N := N_of_ascii c.

Definition between (lo hi : N) (c : ascii) : bool :=
  ((lo <=? code c) && (code c <=? hi))%N.

Definition isUpperAZ (c : ascii) : bool := between 65 90 c.
Definition isLowerAZ (c : ascii) : bool := between 97 122 c.
Definition isDigit (c : ascii) : bool := between 48 57 c.

(** The character class [[a-zA-Z0-9]]. *)
Definition isAlnum (c : ascii) : bool :=
  isLowerAZ c || isUpperAZ c || isDigit c.

(** Upper-case letters of the Latin-1 block: U+00C0..U+00DE except the
    multiplication sign U+00D7. *)
Definition isUpperLatin1 (c : ascii) : bool :=
  (between 192 214 c || between 216 222 c)%N.

Definition lowerChar (c : ascii) : ascii :=
  if isUpperAZ c || isUpperLatin1 c then ascii_of_N (code c + 32) else c.

(** [String.prototype.toLowerCase] *)
Definition toLowerCase (s : string) : string := str (map lowerChar (chars s)).

(** [s.replace(/[cls]/g, r)] for a character class [cls] and a replacement
    of one character: every code unit of the class is replaced. *)
Definition replaceClass (cls : ascii → bool) (r : ascii) (s : string) : string :=
  str (map (λ c, if cls c then r else c) (chars s)).

(** [s.replace(/c/g, '')] for one character [c]. *)
Definition removeChar (c : ascii) (s : string) : string :=
  str (filter (λ x, x ≠ c) (chars s)).

(** WhiteSpace and LineTerminator code units below 256:
    TAB, LF, VT, FF, CR, SP and NBSP. *)
Definition isWhiteSpace (c : ascii) : bool :=
  (between 9 13 c || (code c =? 32) || (code c =? 160))%N.

Fixpoint dropWhile {A} (p : A → bool) (l : list A) : list A :=
  match l with
  | [] => []
  | x :: l' => if p x then dropWhile p l' else l
  end.

Definition trimChars (l : list ascii) : list ascii :=
  rev (dropWhile isWhiteSpace (rev (dropWhile isWhiteSpace l))).

(** [String.prototype.trim] *)
Definition trim (s : string) : string := str (trimChars (chars s)).

(** Truthiness of a string: only the empty string is falsy. *)
Definition truthy (s : string) : bool :=
  match s with EmptyString => false | _ => true end.

Fixpoint splitChars (sep : ascii) (l : list ascii) : list (list ascii) :=
  match l with
  | [] => [[]]
  | c :: l' =>
      if decide (c = sep) then [] :: splitChars sep l'
      else match splitChars sep l' with
           | h :: t => (c :: h) :: t
           | [] => [[c]]
           end
  end.

(** [s.split(sep)] for a separator of one character. *)
Definition split (sep : ascii) (s : string) : list string :=
  str <$> splitChars sep (chars s).

(** [s.startsWith(c)] and [s.endsWith(c)] for one character [c]. *)
Definition startsWith (c : ascii) (s : string) : bool :=
  match chars s with
  | x :: _ => bool_decide (x = c)
  | [] => false
  end.

Definition endsWith (c : ascii) (s : string) : bool :=
  match rev (chars s) with
  | x :: _ => bool_decide (x = c)
  | [] => false
  end.

(** [a.slice(1, -1)] on an array. *)
Definition slice_1_m1 {A} (l : list A) : list A :=
  drop 1 (take (length l - 1) l).

(** [/^-+$/] *)
Definition allDashes (s : string) : bool :=
  match chars s with
  | [] => false
  | l => forallb (λ c, bool_decide (c = "-"%char)) l
  end.

Fixpoint lastIndexOfFrom (c : ascii) (i : nat) (l : list ascii)
    (found : option nat) : option nat :=
  match l with
  | [] => found
  | x :: l' =>
      lastIndexOfFrom c (S i) l' (if decide (x = c) then Some i else found)
  end.

(** [s.lastIndexOf(c)] for one character [c]; [None] stands for [-1]. *)
Definition lastIndexOf (c : ascii) (s : string) : option nat :=
  lastIndexOfFrom c 0 (chars s) None.

(** [s.substring(0, i)] and [s.substring(i)], for [0 <= i]. *)
Definition substring_to (i : nat) (s : string) : string := str (take i (chars s)).
Definition substring_from (i : nat) (s : string) : string := str (drop i (chars s)).

(** [a.join(sep)]: no separator before the first element. *)
Fixpoint join (sep : string) (l : list string) : string :=
  match l with
  | [] => ""
  | [x] => x
  | x :: l' => x +:+ sep +:+ join sep l'
  end.

(** A scalar as the sources meet it: [string | number | null]. Numbers
    are the integers; [undefined] is read as [VNull]. *)
Inductive Value :=
| VNull
| VString (s : string)
| VNumber (n : Z).

(** Truthiness: [null], the empty string and [0] are falsy. *)
Definition truthyValue (v : Value) : bool :=
  match v with
  | VNull => false
  | VString s => truthy s
  | VNumber n => negb (n =? 0)%Z
  end.

(** [a || b] on scalars. *)
Definition or (a b : Value) : Value := if truthyValue a then a else b.

(** The integers every JavaScript number holds exactly and prints digit by
    digit: those below 2^53 in magnitude. *)
Definition safeInteger (n : Z) : bool :=
  (- (2 ^ 53 - 1) <=? n)%Z && (n <=? 2 ^ 53 - 1)%Z.

(** The text of a number, as [String(n)] and [JSON.stringify] give it: the
    decimal numeral of a safe integer. Any other number is rounded by the
    platform, or printed with an exponent ([1e+21]); [other] is what the
    platform prints for it. *)
Definition numberToString (other : Z → string) (n : Z) : string :=
  if safeInteger n then pretty n else other n.

(** [JSON.stringify] of an array of numbers. *)
Definition stringifyArray (other : Z → string) (a : list Z) : string :=
  "[" +:+ join "," (numberToString other <$> a) +:+ "]".

End Js.

(* ===================================================================== *)
(** ** Plain objects filled by assignment                                  *)
(* ===================================================================== *)

Module Obj.

(** What an assigned value is, as far as [__proto__] cares. *)
Inductive Kind := Primitive | Null | Object.

(** An object that started as a literal: its own properties, and whether
    it still inherits the [__proto__] accessor of [Object.prototype] (it
    does until its prototype is set to [null]). *)
Record t (V : Type) := mk {
  own : gmap string V;
  inheritsProto : bool }.
Global Arguments mk {V} own inheritsProto.
Global Arguments own {V} _.
Global Arguments inheritsProto {V} _.

(** [{ ...props }] *)
Definition literal {V} (props : gmap string V) : t V := mk props true.

(** [o[k] = v]. Every key but [__proto__] becomes an own property. For
    [__proto__] the inherited setter runs instead: it replaces the
    prototype when [v] is an object or [null], ignores a primitive, and
    adds no property; once the prototype is [null] the setter is out of
    reach and [__proto__] is a key like any other. The objects assigned in
    this program are object literals, which inherit the setter themselves,
    so an object as the new prototype keeps it in reach. *)
Definition assign {V} (kind : V → Kind) (k : string) (v : V) (o : t V) : t V :=
  if decide (k = "__proto__") then
    if inheritsProto o then
      match kind v with
      | Null => mk (own o) false
      | Primitive | Object => o
      end
    else mk (<[k := v]> (own o)) false
  else mk (<[k := v]> (own o)) (inheritsProto o).

Definition kindOfValue (v : Js.Value) : Kind :=
  match v with
  | Js.VNull => Null
  | Js.VString _ | Js.VNumber _ => Primitive
  end.

End Obj.

(* ===================================================================== *)
(** ** types.ts                                                            *)
(* ===================================================================== *)

Module FieldDefinition.
Record t := mk {
  id : string;
  name : string;
  key : string;     (* sanitized name, used as JSON key *)
  color : string }.
End FieldDefinition.

Module ExtractedValue.
Record t := mk {
  value : Js.Value;
  box_2d : option (list Z) }.
End ExtractedValue.

Inductive Status := idle | processing | success | error.

Global Instance Status_eq_dec : EqDecision Status.
Proof. solve_decision. Defined.

Record File := mkFile {
  file_name : string;
  file_type : string;
  file_bytes : string }.

Module DocumentResult.
Record t := mk {
  id : string;
  file : File;
  fileName : string;
  fileType : string;
  previewUrl : option string;
  status : Status;
  errorMsg : option string;
  data : gmap string ExtractedValue.t }.
End DocumentResult.

Module ReconcileResult.
Record t := mk {
  report : string;
  code : string }.
End ReconcileResult.

Definition COLORS : list string :=
  [ "#ef4444"; "#3b82f6"; "#10b981"; "#f59e0b"; "#8b5cf6";
    "#ec4899"; "#06b6d4"; "#84cc16"; "#f97316"; "#6366f1" ].

(* ===================================================================== *)
(** ** utils.ts                                                            *)
(* ===================================================================== *)

Module Utils.

Definition sanitizeKey (name : string) : string :=
  Js.toLowerCase (Js.replaceClass (λ c, negb (Js.isAlnum c)) "_" name).

Definition getNextColor (index : nat) : string :=
  COLORS !!! (index `mod` length COLORS).

(** *** parseMarkdownTable *)

Definition isTableLine (line : string) : bool :=
  Js.startsWith "|" line && Js.endsWith "|" line.

(** [line.replace(/\|/g, '').trim().match(/^-+$/)] *)
Definition isSeparatorLine (line : string) : bool :=
  Js.allDashes (Js.trim (Js.removeChar "|" line)).

(** [line.split('|').slice(1, -1).map(c => c.trim())] *)
Definition rowCells (line : string) : list string :=
  Js.trim <$> Js.slice_1_m1 (Js.split "|" line).

(** The [for] loop over the lines; [data] and [tableStarted] are its two
    mutable variables, the result is [data] when the loop is left. *)
Fixpoint parseLines (lines : list string) (data : list (list string))
    (tableStarted : bool) : list (list string) :=
  match lines with
  | [] => data
  | line0 :: rest =>
      let line := Js.trim line0 in
      if isTableLine line then
        if isSeparatorLine line then parseLines rest data tableStarted
        else parseLines rest (data ++ [rowCells line]) true
      else if tableStarted && bool_decide (line = "") then data
      else parseLines rest data tableStarted
  end.

Definition parseMarkdownTable (markdown : string) : option (list (list string)) :=
  let lines := Js.split "010" markdown in
  let data := parseLines lines [] false in
  if bool_decide (0 < length data) then Some data else None.

(** *** exportToZip: unique file names *)

(** [`${base}_${counter}${ext}`] *)
Definition numbered (base : string) (counter : nat) (ext : string) : string :=
  base +:+ "_" +:+ pretty counter +:+ ext.

(** The [while (usedFilenames.has(uniqueName))] loop. [fuel] bounds the
    number of tests of the loop condition; [None] is "out of fuel". *)
Fixpoint uniqueLoop (fuel : nat) (usedFilenames : gset string)
    (base ext : string) (counter : nat) (uniqueName : string) : option string :=
  match fuel with
  | 0 => None
  | S fuel' =>
      if decide (uniqueName ∈ usedFilenames)
      then uniqueLoop fuel' usedFilenames base ext (S counter)
             (numbered base counter ext)
      else Some uniqueName
  end.

Definition baseOf (name : string) : string :=
  match Js.lastIndexOf "." name with
  | Some lastDotIndex => Js.substring_to lastDotIndex name
  | None => name
  end.

Definition extOf (name : string) : string :=
  match Js.lastIndexOf "." name with
  | Some lastDotIndex => Js.substring_from lastDotIndex name
  | None => ""
  end.

(** One more test than there are used names, plus the test of the
    original name, always suffices (see [uniqueLoop_total]). *)
Definition uniqueName (usedFilenames : gset string) (name : string) : option string :=
  uniqueLoop (size usedFilenames + 2) usedFilenames (baseOf name) (extOf name) 1 name.

(** What the [documents.forEach] builds: the id-to-name map, the set of
    used names, and the files put into the [source_documents] folder, in
    the order they were added. *)
Record Names := mkNames {
  filenameMap : gmap string string;
  usedFilenames : gset string;
  docsFolder : list (string * File) }.

Definition noNames : Names := mkNames ∅ ∅ [].

Definition addDocument (acc : Names) (doc : DocumentResult.t) : option Names :=
  uniqueName ← uniqueName (usedFilenames acc) (DocumentResult.fileName doc);
  Some (mkNames
          (<[DocumentResult.id doc := uniqueName]> (filenameMap acc))
          ({[uniqueName]} ∪ usedFilenames acc)
          (docsFolder acc ++ [(uniqueName, DocumentResult.file doc)])).

Fixpoint addDocuments (acc : Names) (documents : list DocumentResult.t) : option Names :=
  match documents with
  | [] => Some acc
  | doc :: rest => acc' ← addDocument acc doc; addDocuments acc' rest
  end.

Definition resolveNames (documents : list DocumentResult.t) : option Names :=
  addDocuments noNames documents.

(** The resolved names, in document order. *)
Definition resolvedNames (documents : list DocumentResult.t) : option (list string) :=
  (λ acc, fst <$> docsFolder acc) <$> resolveNames documents.

(** *** exportToZip: the "Source Data (Tick)" sheet *)

Definition statusText (s : Status) : string :=
  match s with
  | idle => "idle"
  | processing => "processing"
  | success => "success"
  | error => "error"
  end.

Definition coordsHeader (f : FieldDefinition.t) : string :=
  FieldDefinition.name f +:+ " (Coords)".

Definition headers (fields : list FieldDefinition.t) : list string :=
  ["File Name"; "Status"] ++ (FieldDefinition.name <$> fields)
    ++ (coordsHeader <$> fields).

(** [extracted?.value || ''] *)
Definition valueCell (extracted : option ExtractedValue.t) : Js.Value :=
  Js.or (from_option ExtractedValue.value Js.VNull extracted) (Js.VString "").

(** [extracted?.box_2d ? JSON.stringify(extracted.box_2d) : ''];
    an array, even an empty one, is truthy. [other] is the platform's text
    of a number that is no safe integer. *)
Definition coordsCell (other : Z → string) (extracted : option ExtractedValue.t)
    : string :=
  match extracted ≫= ExtractedValue.box_2d with
  | Some box => Js.stringifyArray other box
  | None => ""
  end.

(** The two assignments [row[field.name] = ...] and
    [row[`${field.name} (Coords)`] = ...]. *)
Definition fillField (other : Z → string) (doc : DocumentResult.t)
    (row : Obj.t Js.Value) (field : FieldDefinition.t) : Obj.t Js.Value :=
  let extracted := DocumentResult.data doc !! FieldDefinition.key field in
  Obj.assign Obj.kindOfValue (coordsHeader field)
    (Js.VString (coordsCell other extracted))
    (Obj.assign Obj.kindOfValue (FieldDefinition.name field)
       (valueCell extracted) row).

(** The row of a document: the own properties of the object built. *)
Definition dataRow (other : Z → string) (fields : list FieldDefinition.t)
    (doc : DocumentResult.t) : gmap string Js.Value :=
  Obj.own
    (foldl (fillField other doc)
       (Obj.assign Obj.kindOfValue "Status"
          (Js.VString (statusText (DocumentResult.status doc)))
          (Obj.assign Obj.kindOfValue "File Name"
             (Js.VString (DocumentResult.fileName doc))
             (Obj.literal ∅)))
       fields).

Definition dataRows (other : Z → string) (fields : list FieldDefinition.t)
    (documents : list DocumentResult.t) : list (gmap string Js.Value) :=
  dataRow other fields <$> documents.

(** The sheets added for a reconciliation result. *)
Record TieSheets := mkTieSheets {
  joinedDataDetails : option (list (list string));
  analysisReport : list (list string);
  pythonCode : list (list string) }.

Definition tieSheets (r : ReconcileResult.t) : TieSheets :=
  mkTieSheets
    (parseMarkdownTable (ReconcileResult.report r))
    [["Analysis Report"]; [ReconcileResult.report r]]
    [["Executed Python Code"]; [ReconcileResult.code r]].

End Utils.

(* ===================================================================== *)
(** ** Effects: thrown errors and the log of what a handler does           *)
(* ===================================================================== *)

Inductive Error :=
| ApiKeyMissing
| FileReadError
| RemoteError
| NoResponse
| JsonSyntaxError.

Inductive Result (A : Type) :=
| Ok (a : A)
| Throw (e : Error).
Global Arguments Ok {A} a.
Global Arguments Throw {A} e.

(** The request of the extraction call: the inline document, the field
    names the instruction lists, and the response schema (field key to the
    field name of its description). *)
Record ExtractRequest := mkExtractRequest {
  mimeType : string;
  inlineData : option string;
  promptFields : list string;
  properties : gmap string string }.

(** The request of the reconciliation call: both datasets and the user's
    instructions, which the prompt interpolates. *)
Record ReconcileRequest := mkReconcileRequest {
  extractedData : list (gmap string Js.Value);
  referenceRows : list (gmap string Js.Value);
  userInstructions : string }.

Inductive Request :=
| Extract (r : ExtractRequest)
| Reconcile (r : ReconcileRequest).

Inductive Event :=
| RemoteCall (r : Request)
| Alert (msg : string)
| ConsoleError (msg : string).

(** A part of the first candidate; [executableCode] holds the code of an
    executable-code part. *)
Record Part := mkPart { executableCode : option string }.

Record Response := mkResponse {
  text : option string;
  parts : option (list Part) }.

(** The outside of the program at one moment: the configured key, the file
    reader, the remote service ([None]: the call rejects) and [JSON.parse]
    ([None]: it throws). *)
Record World := mkWorld {
  API_KEY : option string;
  readAsDataURL : File → option string;
  generateContent : Request → option Response;
  JSON_parse : string → option (gmap string ExtractedValue.t) }.

Module Eff.

(** A computation that returns or throws, and logs events on the way. *)
Definition t (A : Type) : Type := Result A * list Event.

Definition ret {A} (a : A) : t A := (Ok a, []).
Definition throw {A} (e : Error) : t A := (Throw e, []).
Definition emit (ev : Event) : t unit := (Ok (), [ev]).

Definition bind {A B} (m : t A) (k : A → t B) : t B :=
  match m with
  | (Ok a, log) => let '(r, log') := k a in (r, log ++ log')
  | (Throw e, log) => (Throw e, log)
  end.

(** [try { m } catch (e) { h e }] *)
Definition catch {A} (m : t A) (h : Error → t A) : t A :=
  match m with
  | (Throw e, log) => let '(r, log') := h e in (r, log ++ log')
  | ok => ok
  end.

(** A promise of the outside, or a call into the platform: it yields a
    value, or it rejects (throws) with [e]. *)
Definition await {A} (o : option A) (e : Error) : t A :=
  match o with
  | Some a => ret a
  | None => throw e
  end.

End Eff.

Notation "'let!' x ':=' m 'in' k" := (Eff.bind m (λ x, k))
  (at level 10, x name, m at level 100, k at level 200, only parsing).
Notation "m ;;; k" := (Eff.bind m (λ _, k))
  (at level 100, right associativity, only parsing).

(** The remote calls a log holds. *)
Definition remoteCalls (log : list Event) : list Request :=
  omap (λ ev, match ev with RemoteCall r => Some r | _ => None end) log.

(* ===================================================================== *)
(** ** geminiService.ts                                                    *)
(* ===================================================================== *)

Module GeminiService.

(** [!process.env.API_KEY] is false *)
Definition hasKey (w : World) : bool :=
  match API_KEY w with
  | Some k => Js.truthy k
  | None => false
  end.

(** [ai.models.generateContent(...)]: the call is issued, then it
    resolves or rejects. *)
Definition callRemote (w : World) (r : Request) : Eff.t Response :=
  Eff.emit (RemoteCall r) ;;;
  Eff.await (generateContent w r) RemoteError.

(** The [properties] object of the schema: its own properties, each field
    key with the field name of its description. What is assigned is always
    an object. *)
Definition buildProperties (fields : list FieldDefinition.t) : gmap string string :=
  Obj.own
    (foldl (λ props f,
              Obj.assign (λ _, Obj.Object) (FieldDefinition.key f)
                (FieldDefinition.name f) props)
       (Obj.literal ∅) fields).

Definition processDocument (w : World) (doc : DocumentResult.t)
    (fields : list FieldDefinition.t) : Eff.t (gmap string ExtractedValue.t) :=
  if negb (hasKey w) then Eff.throw ApiKeyMissing
  else
    let properties := buildProperties fields in
    let! base64DataUrl :=
      Eff.await (readAsDataURL w (DocumentResult.file doc)) FileReadError in
    let base64Data := Js.split "," base64DataUrl !! 1 in
    Eff.catch
      (let! response :=
         callRemote w
           (Extract (mkExtractRequest
              (file_type (DocumentResult.file doc)) base64Data
              (FieldDefinition.name <$> fields) properties)) in
       match text response with
       | Some text =>
           if Js.truthy text
           then Eff.await (JSON_parse w text) JsonSyntaxError
           else Eff.throw NoResponse
       | None => Eff.throw NoResponse
       end)
      (λ e, Eff.emit (ConsoleError "Gemini Error:") ;;; Eff.throw e).

(** [d.data[f.key]?.value || null] *)
Definition projectedValue (extracted : option ExtractedValue.t) : Js.Value :=
  Js.or (from_option ExtractedValue.value Js.VNull extracted) Js.VNull.

(** The row [{ fileName: d.fileName }] after the assignments
    [row[f.name] = ...]: its own properties. *)
Definition projectRow (fields : list FieldDefinition.t) (d : DocumentResult.t)
    : gmap string Js.Value :=
  Obj.own
    (foldl (λ row f,
              Obj.assign Obj.kindOfValue (FieldDefinition.name f)
                (projectedValue (DocumentResult.data d !! FieldDefinition.key f))
                row)
       (Obj.literal (<["fileName" := Js.VString (DocumentResult.fileName d)]> ∅))
       fields).

Definition projectDocuments (documents : list DocumentResult.t)
    (fields : list FieldDefinition.t) : list (gmap string Js.Value) :=
  projectRow fields <$>
    filter (λ d, DocumentResult.status d = success) documents.

Definition nl : string := String "010" "".

Definition blockSeparator : string :=
  nl +:+ nl +:+ "# ---------------------------------------------------------"
     +:+ nl +:+ "# Next Code Block"
     +:+ nl +:+ "# ---------------------------------------------------------"
     +:+ nl +:+ nl.

Definition noTextReport : string :=
  "Analysis completed, but no text explanation was returned.".

Definition reconcileData (w : World) (documents : list DocumentResult.t)
    (fields : list FieldDefinition.t) (referenceData : list (gmap string Js.Value))
    (userInstructions : string) : Eff.t ReconcileResult.t :=
  if negb (hasKey w) then Eff.throw ApiKeyMissing
  else
    let extractedData := projectDocuments documents fields in
    Eff.catch
      (let! response :=
         callRemote w
           (Reconcile (mkReconcileRequest extractedData referenceData
                         userInstructions)) in
       let report :=
         match text response with
         | Some t => if Js.truthy t then t else noTextReport
         | None => noTextReport
         end in
       let parts := default [] (parts response) in
       let codeBlocks := omap executableCode parts in
       let code := Js.join blockSeparator codeBlocks in
       Eff.ret (ReconcileResult.mk report code))
      (λ e, Eff.emit (ConsoleError "Reconciliation Error:") ;;; Eff.throw e).

End GeminiService.

(* ===================================================================== *)
(** ** App.tsx: state and handlers                                         *)
(* ===================================================================== *)

Module App.

Record State := mkState {
  fields : list FieldDefinition.t;
  newFieldName : string;
  documents : list DocumentResult.t;
  isProcessing : bool;
  referenceData : list (gmap string Js.Value);
  reconcilePrompt : string;
  isReconciling : bool;
  reconcileResult : option ReconcileResult.t }.

Definition setFields (v : list FieldDefinition.t) (st : State) : State :=
  mkState v (newFieldName st) (documents st) (isProcessing st)
    (referenceData st) (reconcilePrompt st) (isReconciling st) (reconcileResult st).
Definition setNewFieldName (v : string) (st : State) : State :=
  mkState (fields st) v (documents st) (isProcessing st)
    (referenceData st) (reconcilePrompt st) (isReconciling st) (reconcileResult st).
Definition setDocuments (v : list DocumentResult.t) (st : State) : State :=
  mkState (fields st) (newFieldName st) v (isProcessing st)
    (referenceData st) (reconcilePrompt st) (isReconciling st) (reconcileResult st).
Definition setIsProcessing (v : bool) (st : State) : State :=
  mkState (fields st) (newFieldName st) (documents st) v
    (referenceData st) (reconcilePrompt st) (isReconciling st) (reconcileResult st).
Definition setIsReconciling (v : bool) (st : State) : State :=
  mkState (fields st) (newFieldName st) (documents st) (isProcessing st)
    (referenceData st) (reconcilePrompt st) v (reconcileResult st).
Definition setReconcileResult (v : option ReconcileResult.t) (st : State) : State :=
  mkState (fields st) (newFieldName st) (documents st) (isProcessing st)
    (referenceData st) (reconcilePrompt st) (isReconciling st) v.

Definition initialFields : list FieldDefinition.t :=
  [ FieldDefinition.mk "1" "Invoice Number" "invoice_number" (COLORS !!! 0);
    FieldDefinition.mk "2" "Invoice Date" "invoice_date" (COLORS !!! 1);
    FieldDefinition.mk "3" "Total Amount" "total_amount" (COLORS !!! 2) ].

Definition initialPrompt : string :=
  "Compare the 'Total Amount' extracted from documents with the 'Amount' column in the reference dataset. List any invoices that match and those that have discrepancies.".

Definition initialState : State :=
  mkState initialFields "" [] false [] initialPrompt false None.

(** [uuid] is the value [uuidv4()] returns for this call. *)
Definition addField (uuid : string) (st : State) : State :=
  if negb (Js.truthy (Js.trim (newFieldName st))) then st
  else
    let prev := fields st in
    setNewFieldName ""
      (setFields
         (prev ++ [FieldDefinition.mk uuid (newFieldName st)
                     (Utils.sanitizeKey (newFieldName st))
                     (Utils.getNextColor (length prev))])
         st).

Definition removeField (id : string) (st : State) : State :=
  setFields (filter (λ f, FieldDefinition.id f ≠ id) (fields st)) st.

(** [prev.map(d => d.id === id ? f d : d)] *)
Definition updateDoc (id : string) (f : DocumentResult.t → DocumentResult.t)
    (prev : list DocumentResult.t) : list DocumentResult.t :=
  (λ d, if decide (DocumentResult.id d = id) then f d else d) <$> prev.

Definition markProcessing (d : DocumentResult.t) : DocumentResult.t :=
  DocumentResult.mk (DocumentResult.id d) (DocumentResult.file d)
    (DocumentResult.fileName d) (DocumentResult.fileType d)
    (DocumentResult.previewUrl d) processing
    (DocumentResult.errorMsg d) (DocumentResult.data d).

Definition markSuccess (result : gmap string ExtractedValue.t)
    (d : DocumentResult.t) : DocumentResult.t :=
  DocumentResult.mk (DocumentResult.id d) (DocumentResult.file d)
    (DocumentResult.fileName d) (DocumentResult.fileType d)
    (DocumentResult.previewUrl d) success
    (DocumentResult.errorMsg d) result.

Definition markError (d : DocumentResult.t) : DocumentResult.t :=
  DocumentResult.mk (DocumentResult.id d) (DocumentResult.file d)
    (DocumentResult.fileName d) (DocumentResult.fileType d)
    (DocumentResult.previewUrl d) error
    (Some "Extraction failed") (DocumentResult.data d).

(** The [for] loop of [runExtraction] from index [i] on. [docsToProcess]
    is what is left of the copy taken at the start, [prev] the current
    [documents] state, which every [setDocuments] maps over. [env i] is
    the outside during iteration [i]. *)
Fixpoint extractionLoop (env : nat → World) (fields : list FieldDefinition.t)
    (i : nat) (docsToProcess : list DocumentResult.t)
    (prev : list DocumentResult.t) : list DocumentResult.t * list Event :=
  match docsToProcess with
  | [] => (prev, [])
  | doc :: rest =>
      if decide (DocumentResult.status doc = success)
      then extractionLoop env fields (S i) rest prev
      else
        let prev1 := updateDoc (DocumentResult.id doc) markProcessing prev in
        let '(outcome, log) := GeminiService.processDocument (env i) doc fields in
        let prev2 :=
          match outcome with
          | Ok result => updateDoc (DocumentResult.id doc) (markSuccess result) prev1
          | Throw _ => updateDoc (DocumentResult.id doc) markError prev1
          end in
        let '(final, log') := extractionLoop env fields (S i) rest prev2 in
        (final, log ++ log')
  end.

Definition runExtraction (env : nat → World) (st : State) : State * list Event :=
  if bool_decide (length (documents st) = 0) then (st, [])
  else
    let st1 := setIsProcessing true st in
    let docsToProcess := documents st in
    let '(docs, log) :=
      extractionLoop env (fields st) 0 docsToProcess (documents st1) in
    (setIsProcessing false (setDocuments docs st1), log).

Definition errorResult : ReconcileResult.t :=
  ReconcileResult.mk "An error occurred during analysis." "".

Definition runReconciliation (w : World) (st : State) : State * list Event :=
  let successDocs := filter (λ d, DocumentResult.status d = success) (documents st) in
  if bool_decide (length successDocs = 0)
  then (st, [Alert "Please extract data from documents first (Tick phase)."])
  else if bool_decide (length (referenceData st) = 0)
  then (st, [Alert "Please upload a reference dataset."])
  else
    let st1 := setReconcileResult None (setIsReconciling true st) in
    let '(outcome, log) :=
      GeminiService.reconcileData w (documents st) (fields st)
        (referenceData st) (reconcilePrompt st) in
    match outcome with
    | Ok result =>
        (setIsReconciling false (setReconcileResult (Some result) st1), log)
    | Throw _ =>
        (setIsReconciling false (setReconcileResult (Some errorResult) st1),
         log ++ [ConsoleError "error"])
    end.


End App.

(* ===================================================================== *)
(** ** Sequences of registry operations                                    *)
(* ===================================================================== *)

(** What the user does to the field registry: type a name and press the add
    button (the field gets the identifier [uuid]), or press the remove
    button of the field [id]. *)
Inductive RegistryOp :=
| AddField (uuid name : string)
| RemoveField (id : string).

Definition isAdd (op : RegistryOp) : Prop :=
  match op with AddField _ _ => True | RemoveField _ => False end.

Definition registryStep (st : App.State) (op : RegistryOp) : App.State :=
  match op with
  | AddField uuid name => App.addField uuid (App.setNewFieldName name st)
  | RemoveField id => App.removeField id st
  end.

(** The fields an operation creates: the one an accepted [AddField]
    appends. *)
Definition createdBy (st : App.State) (op : RegistryOp) : list FieldDefinition.t :=
  match op with
  | AddField uuid name =>
      if Js.truthy (Js.trim name)
      then option_list (last (App.fields (registryStep st op)))
      else []
  | RemoveField _ => []
  end.

(** All fields ever created, in creation order, starting from those the
    state [st] already holds. *)
Fixpoint createdFrom (st : App.State) (acc : list FieldDefinition.t)
    (ops : list RegistryOp) : list FieldDefinition.t :=
  match ops with
  | [] => acc
  | op :: ops' => createdFrom (registryStep st op) (acc ++ createdBy st op) ops'
  end.

Definition created (st : App.State) (ops : list RegistryOp) : list FieldDefinition.t :=
  createdFrom st (App.fields st) ops.

(** Every field sits at the palette position of its index. *)
Definition paletteAligned (fs : list FieldDefinition.t) : Prop :=
  ∀ k f, fs !! k = Some f →
    FieldDefinition.color f = COLORS !!! (k `mod` length COLORS).

(* ===================================================================== *)
(** ** Where one document ends up in a run                                 *)
(* ===================================================================== *)

(** The terminal record of the document at index [i]: untouched when it
    was already [success], else decided by its own extraction alone. *)
Definition terminalDocument (env : nat → World) (fields : list FieldDefinition.t)
    (i : nat) (d : DocumentResult.t) : DocumentResult.t :=
  if decide (DocumentResult.status d = success) then d
  else match (GeminiService.processDocument (env i) d fields).1 with
       | Ok result => App.markSuccess result (App.markProcessing d)
       | Throw _ => App.markError (App.markProcessing d)
       end.

(** The events iteration [i] of the loop logs for the document [d]. *)
Definition iterationLog (env : nat → World) (fields : list FieldDefinition.t)
    (i : nat) (d : DocumentResult.t) : list Event :=
  if decide (DocumentResult.status d = success) then []
  else (GeminiService.processDocument (env i) d fields).2.

(* ===================================================================== *)
(** ** Characters of a key                                                 *)
(* ===================================================================== *)

(** One sanitized character: what [sanitizeKey] makes of a code unit. *)
Definition sanitizedChar (c : ascii) : ascii :=
  if Js.isAlnum c then Js.lowerChar c else "_"%char.

Definition isKeyChar (c : ascii) : bool :=
  Js.isLowerAZ c || Js.isDigit c || bool_decide (c = "_"%char).

Ltac by_cases_on_char c :=
  destruct c as [[] [] [] [] [] [] [] []]; vm_compute; reflexivity.

(* ===================================================================== *)
(** ** Extraction entries                                                  *)
(* ===================================================================== *)

(** The document [d] with the extraction result [m] in place of its own. *)
Definition withData (m : gmap string ExtractedValue.t) (d : DocumentResult.t)
    : DocumentResult.t :=
  DocumentResult.mk (DocumentResult.id d) (DocumentResult.file d)
    (DocumentResult.fileName d) (DocumentResult.fileType d)
    (DocumentResult.previewUrl d) (DocumentResult.status d)
    (DocumentResult.errorMsg d) m.



(** The characters a serialized array of integers is made of. *)
Definition isCoordsChar (c : ascii) : bool :=
  Js.isDigit c || bool_decide (c = "-"%char) || bool_decide (c = ","%char)
  || bool_decide (c = "["%char) || bool_decide (c = "]"%char).

(* ===================================================================== *)
(** ** Resolved export names                                               *)
(* ===================================================================== *)

(** The names [exportToZip] resolves depend on the file names alone: the
    same walk over the list of file names, with the set of used names. *)
Fixpoint resolveFrom (used : gset string) (names : list string) : option (list string) :=
  match names with
  | [] => Some []
  | name :: rest =>
      u ← Utils.uniqueName used name;
      (u ::.) <$> resolveFrom ({[u]} ∪ used) rest
  end.

(** [r] is the name the rule gives to [name] when the names in [used] are
    taken: [name] itself if it is free, else the first free one among
    [base_1ext], [base_2ext], ... *)
Definition resolvedAs (used : gset string) (name r : string) : Prop :=
  (r ∉ used)
  ∧ (((name ∉ used) ∧ r = name)
     ∨ (name ∈ used
        ∧ ∃ n, 1 ≤ n
               ∧ r = Utils.numbered (Utils.baseOf name) n (Utils.extOf name)
               ∧ ∀ m, 1 ≤ m < n →
                   Utils.numbered (Utils.baseOf name) m (Utils.extOf name) ∈ used)).

(** [base] and [ext] cut [name] at its last dot, if it has one. *)
Definition cutAtLastDot (name base ext : string) : Prop :=
  base +:+ ext = name
  ∧ ((("."%char ∉ Js.chars name) ∧ ext = "")
     ∨ ∃ rest, ext = String "." rest ∧ "."%char ∉ Js.chars rest).

(* ===================================================================== *)
(** ** Lines of a report                                                   *)
(* ===================================================================== *)

(** A line of a pipe table: trimmed, it starts and ends with a pipe. *)
Definition tableLine (line : string) : Prop :=
  Utils.isTableLine (Js.trim line) = true.

(** Any other line: prose, or a blank line. *)
Definition proseLine (line : string) : Prop :=
  Utils.isTableLine (Js.trim line) = false.

(** The rows of a block of table lines: the lines that are no separator
    rows, in order, each cut into its trimmed cells. *)
Definition tableRows (tbl : list string) : list (list string) :=
  Utils.rowCells <$>
    filter (λ line, Utils.isSeparatorLine line = false) (Js.trim <$> tbl).

(** A table line with the cells [cells], none of which holds a pipe. *)
Definition pipeRow (cells : list string) : string :=
  "|" +:+ Js.join "|" cells +:+ "|".

(* ===================================================================== *)
(** ** utils.ts: previews and the links of the sheet                       *)
(* ===================================================================== *)

Module Preview.

Fixpoint hasPrefix (prefix s : list ascii) : bool :=
  match prefix, s with
  | [], _ => true
  | _ :: _, [] => false
  | p :: prefix', c :: s' => bool_decide (p = c) && hasPrefix prefix' s'
  end.

(** [s.startsWith(prefix)] *)
Definition startsWith (prefix s : string) : bool :=
  hasPrefix (Js.chars prefix) (Js.chars s).

Inductive Failure :=
| ReadFailed
| RenderFailed
| UnsupportedFileType.

(** [renderPdfToImage]. [renderFirstPage] is the pdf.js pipeline (load,
    first page, canvas, [toDataURL]); [None] is any step of it throwing. *)
Definition renderPdfToImage (w : World) (renderFirstPage : File → option string)
    (file : File) : Failure + string :=
  if startsWith "image/" (file_type file) then
    match readAsDataURL w file with
    | Some url => inr url
    | None => inl ReadFailed
    end
  else if bool_decide (file_type file = "application/pdf") then
    match renderFirstPage file with
    | Some url => inr url
    | None => inl RenderFailed
    end
  else inl UnsupportedFileType.

End Preview.

Module Links.

Definition folderName : string := "source_documents".

(** The hyperlink put on the first cell of the row of [doc]:
    [filenameMap.get(doc.id)], and a link only if that name is truthy. *)
Definition linkTarget (names : Utils.Names) (doc : DocumentResult.t) : option string :=
  match Utils.filenameMap names !! DocumentResult.id doc with
  | Some uniqueName =>
      if Js.truthy uniqueName then Some (folderName +:+ "/" +:+ uniqueName)
      else None
  | None => None
  end.

(** One link per data row; the sheet has one data row per document. *)
Definition hyperlinks (names : Utils.Names) (documents : list DocumentResult.t)
    : list (option string) :=
  linkTarget names <$> documents.

End Links.

(* ===================================================================== *)
(** ** App.tsx: upload and the guards of the buttons                       *)
(* ===================================================================== *)

Module Upload.

(** The document pushed for one file; [uuid] is what [uuidv4()] returns. *)
Definition uploadedDocument (w : World) (renderFirstPage : File → option string)
    (uuid : string) (file : File) : DocumentResult.t * list Event :=
  match Preview.renderPdfToImage w renderFirstPage file with
  | inr previewUrl =>
      (DocumentResult.mk uuid file (file_name file) (file_type file)
         (Some previewUrl) idle None ∅, [])
  | inl _ =>
      (DocumentResult.mk uuid file (file_name file) (file_type file)
         None error (Some "Could not generate preview") ∅,
       [ConsoleError "Failed to load preview for"])
  end.

(** The [for] loop over the files; the [i]-th file gets [uuid i]. *)
Fixpoint newDocs (w : World) (renderFirstPage : File → option string)
    (uuid : nat → string) (i : nat) (files : list File)
    : list DocumentResult.t * list Event :=
  match files with
  | [] => ([], [])
  | file :: rest =>
      let '(doc, log) := uploadedDocument w renderFirstPage (uuid i) file in
      let '(docs, log') := newDocs w renderFirstPage uuid (S i) rest in
      (doc :: docs, log ++ log')
  end.

(** [handleFileUpload]; [files] is [e.target.files], [None] when null. *)
Definition handleFileUpload (w : World) (renderFirstPage : File → option string)
    (uuid : nat → string) (files : option (list File)) (st : App.State)
    : App.State * list Event :=
  match files with
  | Some files =>
      let '(docs, log) := newDocs w renderFirstPage uuid 0 files in
      (App.setDocuments (App.documents st ++ docs) st, log)
  | None => (st, [])
  end.

End Upload.

Module Buttons.

Definition processedCount (st : App.State) : nat :=
  length (filter (λ d, DocumentResult.status d = success) (App.documents st)).

(** [disabled] of the "Run Extraction" button. *)
Definition extractionDisabled (st : App.State) : bool :=
  App.isProcessing st || bool_decide (length (App.documents st) = 0).

(** [disabled] of the "Run Reconciliation" button. *)
Definition reconciliationDisabled (st : App.State) : bool :=
  App.isReconciling st || bool_decide (processedCount st = 0)
  || bool_decide (length (App.referenceData st) = 0).

End Buttons.

(* ===================================================================== *)
(** ** Predicates of the further properties                                *)
(* ===================================================================== *)

(** What a run of the extraction never changes in a document. *)
Definition sameIdentity (d d' : DocumentResult.t) : Prop :=
  DocumentResult.id d' = DocumentResult.id d
  ∧ DocumentResult.file d' = DocumentResult.file d
  ∧ DocumentResult.fileName d' = DocumentResult.fileName d
  ∧ DocumentResult.fileType d' = DocumentResult.fileType d
  ∧ DocumentResult.previewUrl d' = DocumentResult.previewUrl d.

(** A status a run ends a document in. *)
Definition terminal (s : Status) : Prop := s = success ∨ s = error.

(** The characters of a decimal numeral. *)
Definition isNumeralChar (c : ascii) : bool :=
  Js.isDigit c || bool_decide (c = "-"%char).

(** No event of the log is an alert. *)
Definition noAlert (log : list Event) : Prop :=
  ∀ msg, Alert msg ∉ log.

(* ===================================================================== *)
(** ** components/DocumentViewer.tsx: what it shows of a value             *)
(* ===================================================================== *)

Module Viewer.




End Viewer.

(* ===================================================================== *)
(** ** Further predicates                                                 *)
(* ===================================================================== *)

(** The fields created by a sequence of operations, each with the number of
    fields the registry held when it was added. *)
Fixpoint creationLog (st : App.State) (ops : list RegistryOp)
    : list (nat * FieldDefinition.t) :=
  match ops with
  | [] => []
  | op :: ops' =>
      ((λ f, (length (App.fields st), f)) <$> createdBy st op)
        ++ creationLog (registryStep st op) ops'
  end.

(** A separator row as a reader of Markdown takes it: a table row all of
    whose cells are runs of dashes. *)
Definition allDashCells (line : string) : bool :=
  match Utils.rowCells line with
  | [] => false
  | cells => forallb Js.allDashes cells
  end.

(** The rows a table stands for in that reading: the lines that are no
    such separator rows, each cut into its trimmed cells. *)
Definition dataRowsOf (tbl : list string) : list (list string) :=
  Utils.rowCells <$>
    filter (λ line, allDashCells line = false) (Js.trim <$> tbl).

(** Lower case for the letters A to Z only. *)
Definition asciiLower (s : string) : string :=
  Js.str ((λ c, if Js.isUpperAZ c then ascii_of_N (Js.code c + 32) else c)
            <$> Js.chars s).

(* ===================================================================== *)
(** ** Sample data                                                         *)
(* ===================================================================== *)

Definition sampleFile : File := mkFile "a.pdf" "application/pdf" "%PDF".

Definition sampleDoc (id : string) (s : Status) : DocumentResult.t :=
  DocumentResult.mk id sampleFile "a.pdf" "application/pdf" None s None ∅.

(** An outside in which every extraction succeeds with an empty object. *)
Definition friendlyWorld : World :=
  mkWorld (Some "key") (λ _, Some "data:application/pdf;base64,JVBERg==")
    (λ _, Some (mkResponse (Some "{}") None)) (λ _, Some ∅).

(** An outside in which the remote service rejects every call. *)
Definition hostileWorld : World :=
  mkWorld (Some "key") (λ _, Some "data:application/pdf;base64,JVBERg==")
    (λ _, None) (λ _, Some ∅).

Definition sampleState (docs : list DocumentResult.t) : App.State :=
  App.setDocuments docs App.initialState.

Definition sampleRow : gmap string Js.Value :=
  {[ "Invoice" := Js.VString "INV-001"; "Amount" := Js.VNumber 120 ]}.

(** A state that passes both checks of [runReconciliation]. *)
Definition readyState : App.State :=
  App.mkState App.initialFields "" [sampleDoc "d1" success; sampleDoc "d2" error]
    false [sampleRow] App.initialPrompt false None.

Definition sampleReport : string :=
  "Findings:" +:+ GeminiService.nl
  +:+ "| Invoice | Amount |" +:+ GeminiService.nl
  +:+ "|---|---|" +:+ GeminiService.nl
  +:+ "| INV-001 | 120 |" +:+ GeminiService.nl
  +:+ GeminiService.nl
  +:+ "One invoice matched." +:+ GeminiService.nl
  +:+ "| not | part |".

(** The platform's text of a number that is no safe integer is not used by
    the samples. *)
Definition noBigNumbers : Z → string := λ _, "".

Definition paddedReport : string :=
  "| Invoice | Amount |" +:+ GeminiService.nl
  +:+ "| --- | --- |" +:+ GeminiService.nl
  +:+ "| INV-001 | 120 |" +:+ GeminiService.nl
  +:+ GeminiService.nl
  +:+ "One invoice matched.".

(* ===================================================================== *)
(** ** Properties                                                          *)
(* ===================================================================== *)

(** *** Strings *)

Lemma chars_str (l : list ascii) : Js.chars (Js.str l) = l.
Proof. apply String.list_ascii_of_string_of_list_ascii. Qed.

Lemma str_chars (s : string) : Js.str (Js.chars s) = s.
Proof. apply String.string_of_list_ascii_of_string. Qed.

Lemma chars_inj (s1 s2 : string) : Js.chars s1 = Js.chars s2 → s1 = s2.
Proof. intros H. rewrite <- (str_chars s1), <- (str_chars s2). by rewrite H. Qed.

Lemma chars_app (s1 s2 : string) :
  Js.chars (s1 +:+ s2) = Js.chars s1 ++ Js.chars s2.
Proof. induction s1 as [|c s1 IH]; simpl; [done|]. by rewrite <- IH. Qed.

Lemma sanitizedChar_keyChar (c : ascii) : isKeyChar (sanitizedChar c) = true.
Proof. by_cases_on_char c. Qed.

Lemma sanitizedChar_fixed (c : ascii) :
  isKeyChar c = true → sanitizedChar c = c.
Proof. destruct c as [[] [] [] [] [] [] [] []]; vm_compute; congruence. Qed.

Lemma sanitizedChar_idemp (c : ascii) :
  sanitizedChar (sanitizedChar c) = sanitizedChar c.
Proof. apply sanitizedChar_fixed, sanitizedChar_keyChar. Qed.

Lemma sanitizeKey_chars (n : string) :
  Js.chars (Utils.sanitizeKey n) = sanitizedChar <$> Js.chars n.
Proof.
  unfold Utils.sanitizeKey, Js.toLowerCase, Js.replaceClass.
  rewrite !chars_str, <- list_fmap_compose.
  apply list_fmap_ext. intros _ c _. by_cases_on_char c.
Qed.

(** C7. [sanitizeKey] maps every code unit of the name on its own: a
    character of [[A-Za-z0-9]] to its lower-case form, any other to an
    underscore. Its result holds only lower-case letters, digits and
    underscores, and sanitizing a sanitized key changes nothing. *)
Theorem sanitizeKey_charset_idempotent (n : string) :
  Js.chars (Utils.sanitizeKey n)
    = (λ c, if Js.isAlnum c then Js.lowerChar c else "_"%char) <$> Js.chars n
  ∧ Forall (λ c, Js.isLowerAZ c || Js.isDigit c || bool_decide (c = "_"%char) = true)
      (Js.chars (Utils.sanitizeKey n))
  ∧ Utils.sanitizeKey (Utils.sanitizeKey n) = Utils.sanitizeKey n.
Proof.
  split; [apply sanitizeKey_chars|]. split.
  - rewrite sanitizeKey_chars. apply Forall_fmap, Forall_true.
    intros c. apply sanitizedChar_keyChar.
  - apply chars_inj. rewrite !sanitizeKey_chars, <- list_fmap_compose.
    apply list_fmap_ext. intros _ c _. apply sanitizedChar_idemp.
Qed.

(** *** Field colours *)

Lemma addField_accepted (uuid : string) (st : App.State) :
  Js.truthy (Js.trim (App.newFieldName st)) = true →
  App.fields (App.addField uuid st)
    = App.fields st
      ++ [FieldDefinition.mk uuid (App.newFieldName st)
            (Utils.sanitizeKey (App.newFieldName st))
            (COLORS !!! (length (App.fields st) `mod` length COLORS))].
Proof. intros H. unfold App.addField. by rewrite H. Qed.

Lemma addField_rejected (uuid : string) (st : App.State) :
  Js.truthy (Js.trim (App.newFieldName st)) = false →
  App.addField uuid st = st.
Proof. intros H. unfold App.addField. by rewrite H. Qed.

Lemma paletteAligned_snoc (fs : list FieldDefinition.t) (f : FieldDefinition.t) :
  paletteAligned fs →
  FieldDefinition.color f = COLORS !!! (length fs `mod` length COLORS) →
  paletteAligned (fs ++ [f]).
Proof.
  intros Hfs Hf k g Hk.
  destruct (decide (k < length fs)) as [Hlt|Hge].
  - rewrite lookup_app_l in Hk by done. by apply Hfs.
  - rewrite lookup_app_r in Hk by lia.
    destruct (k - length fs) as [|m] eqn:E; simplify_eq/=.
    by replace k with (length fs) by lia.
Qed.

Lemma createdFrom_adds (ops : list RegistryOp) (st : App.State) :
  Forall isAdd ops →
  createdFrom st (App.fields st) ops = App.fields (foldl registryStep st ops).
Proof.
  intros Hops. revert st. induction Hops as [|op ops Hop _ IH]; intros st; [done|].
  destruct op as [uuid name|]; [|done]. simpl.
  destruct (Js.truthy (Js.trim name)) eqn:E.
  - rewrite <- IH. f_equal. simpl.
    rewrite addField_accepted by done. simpl.
    by rewrite last_snoc.
  - rewrite addField_rejected by done. rewrite app_nil_r.
    by rewrite <- IH.
Qed.

Lemma adds_keep_aligned (ops : list RegistryOp) (st : App.State) :
  Forall isAdd ops →
  paletteAligned (App.fields st) →
  paletteAligned (App.fields (foldl registryStep st ops)).
Proof.
  intros Hops. revert st. induction Hops as [|op ops Hop _ IH]; intros st Hst; [done|].
  destruct op as [uuid name|]; [|done]. simpl. apply IH. simpl.
  destruct (Js.truthy (Js.trim name)) eqn:E.
  - rewrite addField_accepted by done. simpl. by apply paletteAligned_snoc.
  - by rewrite addField_rejected.
Qed.




Lemma initialFields_aligned : paletteAligned (App.fields App.initialState).
Proof.
  intros k f Hk. simpl in Hk.
  destruct k as [|[|[|k]]]; simplify_eq/=; reflexivity.
Qed.

Lemma createdBy_color (st : App.State) (op : RegistryOp) (f : FieldDefinition.t) :
  f ∈ createdBy st op →
  FieldDefinition.color f
    = COLORS !!! (length (App.fields st) `mod` length COLORS).
Proof.
  destruct op as [uuid name|]; simpl; [|by intros ?%elem_of_nil].
  destruct (Js.truthy (Js.trim name)) eqn:E; [|by intros ?%elem_of_nil].
  rewrite addField_accepted by done. rewrite last_snoc. simpl.
  by intros ->%list_elem_of_singleton.
Qed.

Lemma createdFrom_creationLog (ops : list RegistryOp) :
  ∀ st acc, createdFrom st acc ops = acc ++ (snd <$> creationLog st ops).
Proof.
  induction ops as [|op ops IH]; intros st acc; simpl.
  - by rewrite app_nil_r.
  - rewrite IH, fmap_app, <- list_fmap_compose, <- app_assoc. f_equal. f_equal.
    by rewrite list_fmap_id.
Qed.

Lemma creationLog_color (ops : list RegistryOp) :
  ∀ st c f, (c, f) ∈ creationLog st ops →
    FieldDefinition.color f = COLORS !!! (c `mod` length COLORS).
Proof.
  induction ops as [|op ops IH]; intros st c f Hin; [by apply elem_of_nil in Hin|].
  simpl in Hin. apply elem_of_app in Hin as [Hin|Hin]; [|by eapply IH].
  apply list_elem_of_fmap in Hin as (g & [= -> ->] & Hg).
  by apply createdBy_color with op.
Qed.

(** C8, as the code has it. The colour of a new field is the palette entry
    at the number of fields the registry holds when it is added, modulo the
    size of the palette, and this for every sequence of additions and
    removals: a removal lowers that number, so the next field repeats the
    colour of an earlier one. While no field has been removed that number
    is the number of fields created so far: if the fields the registry
    starts with sit at the palette positions of their indices, as the three
    preset fields do, the [k]-th field created (those fields included) has
    the colour [palette[k mod |palette|]]. *)
Theorem created_color_is_current_count (st : App.State) (ops : list RegistryOp) :
  created st ops = App.fields st ++ (snd <$> creationLog st ops)
  ∧ (∀ c f, (c, f) ∈ creationLog st ops →
       FieldDefinition.color f = Utils.getNextColor c
       ∧ Utils.getNextColor c = COLORS !!! (c `mod` length COLORS)
       ∧ COLORS !! (c `mod` length COLORS) = Some (FieldDefinition.color f))
  ∧ (∀ uuid, Js.truthy (Js.trim (App.newFieldName st)) = true →
       ∃ f, App.fields (App.addField uuid st) = App.fields st ++ [f]
            ∧ FieldDefinition.color f
              = COLORS !!! (length (App.fields st) `mod` length COLORS))
  ∧ (Forall isAdd ops → paletteAligned (App.fields st) →
     ∀ k f, created st ops !! k = Some f →
       FieldDefinition.color f = Utils.getNextColor k
       ∧ Utils.getNextColor k = COLORS !!! (k `mod` length COLORS)
       ∧ COLORS !! (k `mod` length COLORS) = Some (FieldDefinition.color f))
  ∧ paletteAligned (App.fields App.initialState).
Proof.
  assert (Hin : ∀ (k : nat) (f : FieldDefinition.t),
            FieldDefinition.color f = COLORS !!! (k `mod` length COLORS) →
            FieldDefinition.color f = Utils.getNextColor k
            ∧ Utils.getNextColor k = COLORS !!! (k `mod` length COLORS)
            ∧ COLORS !! (k `mod` length COLORS) = Some (FieldDefinition.color f)).
  { intros k f Hc. split; [done|]. split; [done|].
    rewrite Hc. apply list_lookup_lookup_total_lt.
    apply Nat.mod_upper_bound. done. }
  split; [apply createdFrom_creationLog|].
  split; [|split; [|split; [|apply initialFields_aligned]]].
  - intros c f Hcf. apply Hin. by apply creationLog_color with ops st.
  - intros uuid Hname. eexists. split; [by apply addField_accepted|done].
  - intros Hops Hst k f Hk. apply Hin.
    unfold created in Hk. rewrite createdFrom_adds in Hk by done.
    by apply (adds_keep_aligned ops st Hops Hst k f Hk).
Qed.

Lemma created_color_is_current_count_witness :
  (FieldDefinition.color (FieldDefinition.mk "b" "Due Date" "due_date" "#f59e0b")
     = Utils.getNextColor 3
   ∧ Utils.getNextColor 3 = COLORS !!! (3 `mod` length COLORS)
   ∧ COLORS !! (3 `mod` length COLORS)
     = Some (FieldDefinition.color
               (FieldDefinition.mk "b" "Due Date" "due_date" "#f59e0b")))
  ∧ (FieldDefinition.color (FieldDefinition.mk "b" "Due Date" "due_date" "#8b5cf6")
       = Utils.getNextColor 4
     ∧ Utils.getNextColor 4 = COLORS !!! (4 `mod` length COLORS)
     ∧ COLORS !! (4 `mod` length COLORS)
       = Some (FieldDefinition.color
                 (FieldDefinition.mk "b" "Due Date" "due_date" "#8b5cf6"))).
Proof.
  split.
  - destruct (created_color_is_current_count App.initialState
                [AddField "a" "Vendor"; RemoveField "1"; AddField "b" "Due Date"])
      as (_ & Hlog & _).
    apply Hlog. vm_compute. right. left.
  - destruct (created_color_is_current_count App.initialState
                [AddField "a" "Vendor"; AddField "b" "Due Date"])
      as (_ & _ & _ & Hadds & Hpreset).
    apply (Hadds ltac:(repeat constructor) Hpreset 4). reflexivity.
Defined.

(** C8, as the claim states it, fails once a field is removed: after
    adding a fourth field, removing the first preset and adding one more,
    the field created fifth (index 4) gets [palette[3]], the colour of the
    fourth, and not [palette[4]]. *)
Lemma created_color_after_removal :
  ¬ (∀ (ops : list RegistryOp) (k : nat) (f : FieldDefinition.t),
       created App.initialState ops !! k = Some f →
       FieldDefinition.color f = COLORS !!! (k `mod` length COLORS)).
Proof.
  intros H.
  specialize (H [AddField "a" "Vendor"; RemoveField "1"; AddField "b" "Due Date"]
                4 (FieldDefinition.mk "b" "Due Date" "due_date" "#f59e0b")
                eq_refl).
  vm_compute in H. discriminate H.
Qed.

(** *** The extraction loop *)

Lemma updateDoc_cons (id : string) (f : DocumentResult.t → DocumentResult.t)
    (d : DocumentResult.t) (l : list DocumentResult.t) :
  App.updateDoc id f (d :: l)
    = (if decide (DocumentResult.id d = id) then f d else d) :: App.updateDoc id f l.
Proof. done. Qed.

Lemma updateDoc_app (id : string) (f : DocumentResult.t → DocumentResult.t)
    (l1 l2 : list DocumentResult.t) :
  App.updateDoc id f (l1 ++ l2) = App.updateDoc id f l1 ++ App.updateDoc id f l2.
Proof. apply fmap_app. Qed.

Lemma updateDoc_fresh (id : string) (f : DocumentResult.t → DocumentResult.t)
    (l : list DocumentResult.t) :
  id ∉ DocumentResult.id <$> l → App.updateDoc id f l = l.
Proof.
  induction l as [|d l IH]; intros Hid; [done|].
  rewrite fmap_cons, not_elem_of_cons in Hid. destruct Hid as [Hd Hl].
  rewrite updateDoc_cons, IH by done. by rewrite decide_False.
Qed.

Lemma updateDoc_middle (f : DocumentResult.t → DocumentResult.t)
    (done_ rest : list DocumentResult.t) (d : DocumentResult.t) :
  NoDup (DocumentResult.id <$> (done_ ++ d :: rest)) →
  App.updateDoc (DocumentResult.id d) f (done_ ++ d :: rest)
    = done_ ++ f d :: rest.
Proof.
  rewrite fmap_app, fmap_cons. intros Hnd.
  apply NoDup_app in Hnd as (_ & Hdis & Hnd).
  apply NoDup_cons in Hnd as [Hrest _].
  rewrite updateDoc_app, updateDoc_cons, decide_True by done.
  f_equal; [|f_equal]; apply updateDoc_fresh; [|done].
  intros Hin. apply (Hdis _ Hin). left.
Qed.

Lemma extractionLoop_log (env : nat → World) (fields : list FieldDefinition.t)
    (todo : list DocumentResult.t) :
  ∀ i prev,
    (App.extractionLoop env fields i todo prev).2
      = concat (imap (λ k, iterationLog env fields (i + k)) todo).
Proof.
  induction todo as [|doc rest IH]; intros i prev; [done|].
  simpl. unfold iterationLog at 1. rewrite Nat.add_0_r.
  assert (Hshift : imap ((λ k, iterationLog env fields (i + k)) ∘ S) rest
                   = imap (λ k, iterationLog env fields (S i + k)) rest).
  { apply imap_ext. intros k d _. simpl. f_equal. lia. }
  rewrite Hshift.
  destruct (decide (DocumentResult.status doc = success)); [apply IH|].
  destruct (GeminiService.processDocument (env i) doc fields) as [outcome log].
  match goal with
  | |- context [App.extractionLoop env fields (S i) rest ?p] =>
      specialize (IH (S i) p);
      destruct (App.extractionLoop env fields (S i) rest p) as [final log']
  end.
  simpl in *. by rewrite IH.
Qed.

Lemma extractionLoop_docs (env : nat → World) (fields : list FieldDefinition.t)
    (todo : list DocumentResult.t) :
  ∀ i done_,
    NoDup (DocumentResult.id <$> (done_ ++ todo)) →
    (App.extractionLoop env fields i todo (done_ ++ todo)).1
      = done_ ++ imap (λ k, terminalDocument env fields (i + k)) todo.
Proof.
  induction todo as [|doc rest IH]; intros i done_ Hnd; [done|].
  simpl. unfold terminalDocument at 1. rewrite Nat.add_0_r.
  assert (Hshift : imap ((λ k, terminalDocument env fields (i + k)) ∘ S) rest
                   = imap (λ k, terminalDocument env fields (S i + k)) rest).
  { apply imap_ext. intros k d _. simpl. f_equal. lia. }
  rewrite Hshift.
  destruct (decide (DocumentResult.status doc = success)).
  - rewrite (cons_middle doc done_ rest), app_assoc.
    rewrite IH; [by rewrite <- app_assoc|].
    by rewrite <- app_assoc.
  - rewrite updateDoc_middle by done.
    destruct (GeminiService.processDocument (env i) doc fields) as [outcome log].
    simpl.
    set (settled := match outcome with
                    | Ok result => App.markSuccess result (App.markProcessing doc)
                    | Throw _ => App.markError (App.markProcessing doc)
                    end).
    assert (Hid : DocumentResult.id (App.markProcessing doc) = DocumentResult.id doc)
      by done.
    assert (Hnd1 : NoDup (DocumentResult.id <$> (done_ ++ App.markProcessing doc :: rest))).
    { by rewrite fmap_app, fmap_cons, Hid, <- fmap_cons, <- fmap_app. }
    assert (Hupd : match outcome with
                   | Ok result =>
                       App.updateDoc (DocumentResult.id doc) (App.markSuccess result)
                         (done_ ++ App.markProcessing doc :: rest)
                   | Throw _ =>
                       App.updateDoc (DocumentResult.id doc) App.markError
                         (done_ ++ App.markProcessing doc :: rest)
                   end = (done_ ++ [settled]) ++ rest).
    { rewrite <- Hid. subst settled.
      destruct outcome; rewrite updateDoc_middle by done;
        by rewrite <- app_assoc. }
    rewrite Hupd.
    assert (Hnd2 : NoDup (DocumentResult.id <$> ((done_ ++ [settled]) ++ rest))).
    { rewrite <- app_assoc. simpl.
      rewrite fmap_app, fmap_cons.
      replace (DocumentResult.id settled) with (DocumentResult.id doc)
        by (subst settled; by destruct outcome).
      by rewrite <- fmap_cons, <- fmap_app. }
    specialize (IH (S i) _ Hnd2).
    destruct (App.extractionLoop env fields (S i) rest ((done_ ++ [settled]) ++ rest))
      as [final log'].
    simpl in *. rewrite IH. by rewrite <- app_assoc.
Qed.

Lemma runExtraction_log (env : nat → World) (st : App.State) :
  (App.runExtraction env st).2
    = concat (imap (iterationLog env (App.fields st)) (App.documents st)).
Proof.
  unfold App.runExtraction. case_bool_decide as Hlen.
  - apply nil_length_inv in Hlen. by rewrite Hlen.
  - simpl.
    pose proof (extractionLoop_log env (App.fields st) (App.documents st) 0
                  (App.documents st)) as H.
    destruct (App.extractionLoop env (App.fields st) 0 (App.documents st)
                (App.documents st)) as [docs log].
    simpl in *. rewrite H. done.
Qed.

Lemma runExtraction_docs (env : nat → World) (st : App.State) :
  NoDup (DocumentResult.id <$> App.documents st) →
  App.documents (App.runExtraction env st).1
    = imap (terminalDocument env (App.fields st)) (App.documents st).
Proof.
  intros Hnd. unfold App.runExtraction. case_bool_decide as Hlen.
  - apply nil_length_inv in Hlen. by rewrite Hlen.
  - simpl.
    pose proof (extractionLoop_docs env (App.fields st) (App.documents st) 0 []
                  Hnd) as H.
    simpl in H.
    destruct (App.extractionLoop env (App.fields st) 0 (App.documents st)
                (App.documents st)) as [docs log].
    simpl in *. rewrite H. done.
Qed.

Lemma remoteCalls_app (l1 l2 : list Event) :
  remoteCalls (l1 ++ l2) = remoteCalls l1 ++ remoteCalls l2.
Proof. apply omap_app. Qed.

Lemma remoteCalls_concat (ls : list (list Event)) :
  remoteCalls (concat ls) = concat (remoteCalls <$> ls).
Proof.
  induction ls as [|l ls IH]; [done|].
  simpl. by rewrite remoteCalls_app, IH.
Qed.

(** What [processDocument] sends: nothing without a key or when the file
    cannot be read, else the one request built from the document. *)
Lemma processDocument_remoteCalls (w : World) (doc : DocumentResult.t)
    (fields : list FieldDefinition.t) :
  remoteCalls (GeminiService.processDocument w doc fields).2
    = if GeminiService.hasKey w then
        match readAsDataURL w (DocumentResult.file doc) with
        | Some url =>
            [Extract (mkExtractRequest (file_type (DocumentResult.file doc))
                        (Js.split "," url !! 1)
                        (FieldDefinition.name <$> fields)
                        (GeminiService.buildProperties fields))]
        | None => []
        end
      else [].
Proof.
  unfold GeminiService.processDocument.
  destruct (GeminiService.hasKey w); [|done]. simpl.
  destruct (readAsDataURL w (DocumentResult.file doc)) as [url|]; [|done]. simpl.
  unfold GeminiService.callRemote. simpl.
  destruct (generateContent w _) as [response|]; [|done]. simpl.
  destruct (text response) as [t|]; [|done].
  destruct (Js.truthy t); [|done].
  by destruct (JSON_parse w t).
Qed.

Lemma extractionLoop_all_success (env : nat → World)
    (fields : list FieldDefinition.t) (todo : list DocumentResult.t) :
  Forall (λ d, DocumentResult.status d = success) todo →
  ∀ i prev, App.extractionLoop env fields i todo prev = (prev, []).
Proof.
  induction 1 as [|doc rest Hdoc _ IH]; intros i prev; [done|].
  simpl. by rewrite decide_True.
Qed.

(** C1. The remote calls of a run are, in document order, the calls made
    for the documents that were not [success] when the run started; a
    document that was [success] contributes none. On a document set that is
    all [success], as on a second run after a fully successful first one,
    the run logs nothing at all, so no remote call, and leaves every
    document as it was. *)
Theorem runExtraction_skips_success (env : nat → World) (st : App.State) :
  remoteCalls (App.runExtraction env st).2
    = concat (imap (λ i d,
                if decide (DocumentResult.status d = success) then []
                else remoteCalls
                       (GeminiService.processDocument (env i) d (App.fields st)).2)
              (App.documents st))
  ∧ (Forall (λ d, DocumentResult.status d = success) (App.documents st) →
     (App.runExtraction env st).2 = []
     ∧ remoteCalls (App.runExtraction env st).2 = []
     ∧ App.documents (App.runExtraction env st).1 = App.documents st).
Proof.
  split.
  - rewrite runExtraction_log, remoteCalls_concat, fmap_imap.
    f_equal. apply imap_ext. intros i d _. simpl. unfold iterationLog.
    by destruct (decide (DocumentResult.status d = success)).
  - intros Hall. unfold App.runExtraction. case_bool_decide; [done|].
    simpl. by rewrite extractionLoop_all_success.
Qed.

Lemma runExtraction_skips_success_witness :
  (App.runExtraction (λ _, friendlyWorld)
     (sampleState [sampleDoc "d1" success; sampleDoc "d2" success])).2 = []
  ∧ remoteCalls
      (App.runExtraction (λ _, friendlyWorld)
         (sampleState [sampleDoc "d1" success; sampleDoc "d2" success])).2 = []
  ∧ App.documents
      (App.runExtraction (λ _, friendlyWorld)
         (sampleState [sampleDoc "d1" success; sampleDoc "d2" success])).1
    = App.documents (sampleState [sampleDoc "d1" success; sampleDoc "d2" success]).
Proof.
  apply (runExtraction_skips_success (λ _, friendlyWorld)
           (sampleState [sampleDoc "d1" success; sampleDoc "d2" success])).
  repeat constructor.
Defined.

(** C2. In a run over documents with distinct identifiers, let the
    extraction of the document at index [j] fail. That document ends with
    the status [error], the message "Extraction failed", and its data,
    identifier and file name untouched. The loop goes on: the list keeps its
    length, and every other document ends where its own extraction alone
    puts it: unchanged when it was already [success], [success] with the
    extracted data when its extraction succeeds, [error] with its data kept
    when its extraction fails. And in any other run in which the extractions
    of the other documents come out the same, whatever happens to document
    [j] there, each of those other documents ends with the same record,
    status and data included. *)
Theorem extraction_failure_is_isolated
    (env1 env2 : nat → World) (st : App.State)
    (j : nat) (dj : DocumentResult.t) (e : Error) :
  NoDup (DocumentResult.id <$> App.documents st) →
  App.documents st !! j = Some dj →
  DocumentResult.status dj ≠ success →
  (GeminiService.processDocument (env1 j) dj (App.fields st)).1 = Throw e →
  (∀ i d, i ≠ j → App.documents st !! i = Some d →
     (GeminiService.processDocument (env1 i) d (App.fields st)).1
       = (GeminiService.processDocument (env2 i) d (App.fields st)).1) →
  let final1 := App.documents (App.runExtraction env1 st).1 in
  let final2 := App.documents (App.runExtraction env2 st).1 in
  final1 !! j = Some (App.markError (App.markProcessing dj))
  ∧ (∃ dj', final1 !! j = Some dj'
            ∧ DocumentResult.status dj' = error
            ∧ DocumentResult.errorMsg dj' = Some "Extraction failed"
            ∧ DocumentResult.data dj' = DocumentResult.data dj
            ∧ DocumentResult.id dj' = DocumentResult.id dj
            ∧ DocumentResult.fileName dj' = DocumentResult.fileName dj)
  ∧ length final1 = length (App.documents st)
  ∧ (∀ k d, k ≠ j → App.documents st !! k = Some d →
       final1 !! k
         = Some (if decide (DocumentResult.status d = success) then d
                 else match (GeminiService.processDocument (env1 k) d (App.fields st)).1 with
                      | Ok result => App.markSuccess result (App.markProcessing d)
                      | Throw _ => App.markError (App.markProcessing d)
                      end))
  ∧ (∀ k d, k ≠ j → App.documents st !! k = Some d →
       ∃ d', final1 !! k = Some d'
             ∧ DocumentResult.id d' = DocumentResult.id d
             ∧ (DocumentResult.status d = success → d' = d)
             ∧ (DocumentResult.status d ≠ success →
                ∀ result,
                  (GeminiService.processDocument (env1 k) d (App.fields st)).1
                    = Ok result →
                  DocumentResult.status d' = success
                  ∧ DocumentResult.data d' = result)
             ∧ (DocumentResult.status d ≠ success →
                ∀ e',
                  (GeminiService.processDocument (env1 k) d (App.fields st)).1
                    = Throw e' →
                  DocumentResult.status d' = error
                  ∧ DocumentResult.data d' = DocumentResult.data d))
  ∧ (∀ k, k ≠ j → final1 !! k = final2 !! k)
  ∧ (∀ k d1 d2, k ≠ j → final1 !! k = Some d1 → final2 !! k = Some d2 →
       DocumentResult.status d1 = DocumentResult.status d2
       ∧ DocumentResult.data d1 = DocumentResult.data d2).
Proof.
  intros Hnd Hj Hstatus Hfail Hsame final1 final2.
  subst final1 final2. rewrite !runExtraction_docs by done.
  assert (Hothers : ∀ k, k ≠ j →
            imap (terminalDocument env1 (App.fields st)) (App.documents st) !! k
            = imap (terminalDocument env2 (App.fields st)) (App.documents st) !! k).
  { intros k Hk. rewrite !list_lookup_imap.
    destruct (App.documents st !! k) as [d|] eqn:Hd; [|done].
    simpl. unfold terminalDocument.
    by rewrite (Hsame k d Hk Hd). }
  assert (Hjth : imap (terminalDocument env1 (App.fields st)) (App.documents st) !! j
                 = Some (App.markError (App.markProcessing dj))).
  { rewrite list_lookup_imap, Hj. simpl. unfold terminalDocument.
    by rewrite decide_False, Hfail. }
  split; [done|]. split; [by eexists|]. split; [by rewrite length_imap|].
  split; [|split; [|split; [done|]]].
  - intros k d _ Hk. by rewrite list_lookup_imap, Hk.
  - intros k d _ Hk. rewrite list_lookup_imap, Hk. simpl.
    eexists. split; [done|]. unfold terminalDocument.
    destruct (decide (DocumentResult.status d = success)) as [Hs|Hs].
    + repeat split; done.
    + destruct (GeminiService.processDocument (env1 k) d (App.fields st)).1
        as [result|e']; simpl; (split; [done|split; [done|split]]).
      * by intros _ result' [= <-].
      * by intros _ e'.
      * by intros _ result'.
      * by intros _ e''.
  - intros k d1 d2 Hk H1 H2. rewrite (Hothers k Hk), H2 in H1.
    by injection H1 as <-.
Qed.

Lemma extraction_failure_is_isolated_witness :
  let st := sampleState [sampleDoc "d1" idle; sampleDoc "d2" idle; sampleDoc "d3" error] in
  let env1 := λ i : nat, if decide (i = 1) then hostileWorld else friendlyWorld in
  let env2 := λ _ : nat, friendlyWorld in
  let final1 := App.documents (App.runExtraction env1 st).1 in
  let final2 := App.documents (App.runExtraction env2 st).1 in
  (∃ dj', final1 !! 1 = Some dj'
          ∧ DocumentResult.status dj' = error
          ∧ DocumentResult.errorMsg dj' = Some "Extraction failed"
          ∧ DocumentResult.data dj' = DocumentResult.data (sampleDoc "d2" idle)
          ∧ DocumentResult.id dj' = DocumentResult.id (sampleDoc "d2" idle)
          ∧ DocumentResult.fileName dj' = DocumentResult.fileName (sampleDoc "d2" idle))
  ∧ (∀ k, k ≠ 1 → final1 !! k = final2 !! k).
Proof.
  intros st env1 env2.
  destruct (extraction_failure_is_isolated env1 env2 st 1 (sampleDoc "d2" idle)
              RemoteError) as (_ & Hfailed & _ & _ & _ & Hsame & _).
  - apply (bool_decide_unpack _). vm_compute. exact I.
  - reflexivity.
  - discriminate.
  - reflexivity.
  - intros i d Hi _. subst env1 env2. simpl. by rewrite decide_False.
  - exact (conj Hfailed Hsame).
Defined.

(** *** Reconciliation *)

(** The request [reconcileData] sends for a state. *)
Lemma reconcileData_outcome (w : World) (documents : list DocumentResult.t)
    (fields : list FieldDefinition.t) (referenceData : list (gmap string Js.Value))
    (userInstructions : string) :
  let req := Reconcile (mkReconcileRequest
                          (GeminiService.projectDocuments documents fields)
                          referenceData userInstructions) in
  GeminiService.reconcileData w documents fields referenceData userInstructions
    = if GeminiService.hasKey w then
        match generateContent w req with
        | Some response =>
            (Ok (ReconcileResult.mk
                   (match text response with
                    | Some t => if Js.truthy t then t else GeminiService.noTextReport
                    | None => GeminiService.noTextReport
                    end)
                   (Js.join GeminiService.blockSeparator
                      (omap executableCode (default [] (parts response))))),
             [RemoteCall req])
        | None =>
            (Throw RemoteError,
             [RemoteCall req; ConsoleError "Reconciliation Error:"])
        end
      else (Throw ApiKeyMissing, []).
Proof.
  intros req. unfold GeminiService.reconcileData.
  destruct (GeminiService.hasKey w); [|done]. simpl.
  unfold GeminiService.callRemote. simpl. fold req.
  by destruct (generateContent w req) as [response|].
Qed.

(** C3. With no [success] document, or with no reference row, the handler
    only shows an alert: the state is unchanged and no remote call is
    issued. So a remote call is issued only when there is a [success]
    document and a reference row; with both, and a configured key, exactly
    the one reconciliation request is sent. *)
Theorem runReconciliation_checks_preconditions (w : World) (st : App.State) :
  let successCount :=
    length (filter (λ d, DocumentResult.status d = success) (App.documents st)) in
  let out := App.runReconciliation w st in
  (successCount = 0 ∨ length (App.referenceData st) = 0 →
     remoteCalls out.2 = [] ∧ out.1 = st ∧ ∃ msg, out.2 = [Alert msg])
  ∧ (remoteCalls out.2 ≠ [] →
     0 < successCount ∧ 0 < length (App.referenceData st))
  ∧ (0 < successCount → 0 < length (App.referenceData st) →
     GeminiService.hasKey w = true →
     remoteCalls out.2
       = [Reconcile (mkReconcileRequest
                       (GeminiService.projectDocuments (App.documents st) (App.fields st))
                       (App.referenceData st) (App.reconcilePrompt st))]).
Proof.
  intros successCount out.
  assert (Hrefuse : successCount = 0 ∨ length (App.referenceData st) = 0 →
            remoteCalls out.2 = [] ∧ out.1 = st ∧ ∃ msg, out.2 = [Alert msg]).
  { subst out successCount. unfold App.runReconciliation.
    intros [H0|H0].
    - rewrite bool_decide_eq_true_2 by done. simpl. eauto.
    - case_bool_decide; [simpl; eauto|].
      rewrite bool_decide_eq_true_2 by done. simpl. eauto. }
  split; [done|]. split.
  - intros Hcalls.
    destruct (decide (successCount = 0)) as [H0|H0];
      [by destruct Hrefuse as [? _]; [left|] |].
    destruct (decide (length (App.referenceData st) = 0)) as [H1|H1];
      [by destruct Hrefuse as [? _]; [right|] |].
    lia.
  - intros Hs Hr Hkey. subst out successCount. unfold App.runReconciliation.
    rewrite !bool_decide_eq_false_2 by lia.
    rewrite reconcileData_outcome, Hkey.
    by destruct (generateContent w _).
Qed.

Lemma runReconciliation_checks_preconditions_witness :
  remoteCalls (App.runReconciliation friendlyWorld
                 (sampleState [sampleDoc "d1" idle; sampleDoc "d2" error])).2 = []
  ∧ (App.runReconciliation friendlyWorld
       (sampleState [sampleDoc "d1" idle; sampleDoc "d2" error])).1
    = sampleState [sampleDoc "d1" idle; sampleDoc "d2" error]
  ∧ ∃ msg, (App.runReconciliation friendlyWorld
              (sampleState [sampleDoc "d1" idle; sampleDoc "d2" error])).2
           = [Alert msg].
Proof.
  apply (runReconciliation_checks_preconditions friendlyWorld
           (sampleState [sampleDoc "d1" idle; sampleDoc "d2" error])).
  left. reflexivity.
Defined.

(** C4. When both checks pass, the handler always ends with a result in the
    state and the busy flag cleared. Whenever [reconcileData] throws, and it
    throws exactly when the key is missing or the remote call rejects, that
    result is the fixed one: the report ["An error occurred during
    analysis."] and the empty code. *)
Theorem reconciliation_failure_becomes_result (w : World) (st : App.State) :
  0 < length (filter (λ d, DocumentResult.status d = success) (App.documents st)) →
  0 < length (App.referenceData st) →
  let req := Reconcile (mkReconcileRequest
                          (GeminiService.projectDocuments (App.documents st) (App.fields st))
                          (App.referenceData st) (App.reconcilePrompt st)) in
  let attempt := GeminiService.reconcileData w (App.documents st) (App.fields st)
                   (App.referenceData st) (App.reconcilePrompt st) in
  let out := App.runReconciliation w st in
  is_Some (App.reconcileResult out.1)
  ∧ App.isReconciling out.1 = false
  ∧ ((∃ e, attempt.1 = Throw e)
     ↔ GeminiService.hasKey w = false ∨ generateContent w req = None)
  ∧ ((∃ e, attempt.1 = Throw e) →
     App.reconcileResult out.1
       = Some (ReconcileResult.mk "An error occurred during analysis." "")).
Proof.
  intros Hs Hr req attempt out.
  subst out. unfold App.runReconciliation.
  rewrite !bool_decide_eq_false_2 by lia.
  fold attempt. subst attempt. rewrite reconcileData_outcome. fold req.
  destruct (GeminiService.hasKey w).
  - destruct (generateContent w req) as [response|]; simpl.
    + split; [eauto|]. split; [done|]. split.
      * split; [by intros [e ?]|by intros [?|?]].
      * by intros [e ?].
    + split; [eauto|]. split; [done|]. split; [|done].
      split; eauto.
  - simpl. split; [eauto|]. split; [done|]. split; [|done].
    split; eauto.
Qed.

Lemma reconciliation_failure_becomes_result_witness :
  App.reconcileResult (App.runReconciliation hostileWorld readyState).1
    = Some (ReconcileResult.mk "An error occurred during analysis." "").
Proof.
  apply (reconciliation_failure_becomes_result hostileWorld readyState).
  - vm_compute. lia.
  - vm_compute. lia.
  - exists RemoteError. reflexivity.
Defined.

(** *** The export sheet *)

Lemma assign_own_other {V} (kind : V → Obj.Kind) (k k' : string) (v : V)
    (o : Obj.t V) :
  k' ≠ k → Obj.own (Obj.assign kind k v o) !! k' = Obj.own o !! k'.
Proof.
  intros Hne. unfold Obj.assign.
  destruct (decide (k = "__proto__")); [destruct (Obj.inheritsProto o);
    [destruct (kind v)|]|]; simpl; by rewrite ?lookup_insert_ne.
Qed.

Lemma assign_plain {V} (kind : V → Obj.Kind) (k : string) (v : V) (o : Obj.t V) :
  k ≠ "__proto__" →
  Obj.assign kind k v o = Obj.mk (<[k := v]> (Obj.own o)) (Obj.inheritsProto o).
Proof. intros Hne. unfold Obj.assign. by rewrite decide_False. Qed.

Lemma assign_proto_kept {V} (kind : V → Obj.Kind) (v : V) (o : Obj.t V) :
  Obj.inheritsProto o = true → kind v ≠ Obj.Null →
  Obj.assign kind "__proto__" v o = o.
Proof.
  intros Ho Hv. unfold Obj.assign. rewrite decide_True, Ho by done.
  by destruct (kind v).
Qed.

Lemma coordsHeader_not_proto (f : FieldDefinition.t) :
  Utils.coordsHeader f ≠ "__proto__".
Proof.
  unfold Utils.coordsHeader. intros H.
  apply (f_equal (λ s, rev (Js.chars s))) in H. simpl in H.
  rewrite chars_app, rev_app_distr in H. discriminate H.
Qed.

Lemma pretty_N_go_coordsChars (x : N) :
  ∀ s, Forall (λ c, isCoordsChar c = true) (Js.chars s) →
       Forall (λ c, isCoordsChar c = true) (Js.chars (pretty_N_go x s)).
Proof.
  induction (N.lt_wf_0 x) as [x _ IH]; intros s Hs.
  destruct (decide (x = 0)%N) as [->|Hx]; [by rewrite pretty_N_go_0|].
  rewrite pretty_N_go_step by lia.
  apply IH; [apply N.div_lt; lia|].
  change (Js.chars (String ?c s)) with (c :: Js.chars s).
  constructor; [|done].
  unfold pretty_N_char. by repeat case_match.
Qed.



Lemma numberToString_safe (other : Z → string) (box : list Z) :
  Forall (λ n, Js.safeInteger n = true) box →
  Js.numberToString other <$> box = pretty <$> box.
Proof.
  induction 1 as [|n box Hn _ IH]; [done|].
  rewrite !fmap_cons, IH. unfold Js.numberToString. by rewrite Hn.
Qed.


Lemma fillField_other (other : Z → string) (doc : DocumentResult.t)
    (row : Obj.t Js.Value) (f : FieldDefinition.t) (k : string) :
  k ≠ FieldDefinition.name f → k ≠ Utils.coordsHeader f →
  Obj.own (Utils.fillField other doc row f) !! k = Obj.own row !! k.
Proof.
  intros Hn Hc. unfold Utils.fillField.
  by rewrite !assign_own_other.
Qed.

Lemma fillFields_other (other : Z → string) (doc : DocumentResult.t)
    (fields : list FieldDefinition.t) (k : string) :
  k ∉ (FieldDefinition.name <$> fields) → k ∉ (Utils.coordsHeader <$> fields) →
  ∀ row, Obj.own (foldl (Utils.fillField other doc) row fields) !! k
         = Obj.own row !! k.
Proof.
  induction fields as [|f fields IH]; intros Hn Hc row; [done|].
  rewrite fmap_cons, not_elem_of_cons in Hn, Hc.
  destruct Hn as [Hn Hns], Hc as [Hc Hcs].
  simpl. rewrite IH by done. by apply fillField_other.
Qed.

Lemma columns_NoDup_cons (f : FieldDefinition.t) (fields : list FieldDefinition.t) :
  NoDup ((FieldDefinition.name <$> f :: fields) ++ (Utils.coordsHeader <$> f :: fields)) →
  NoDup ((FieldDefinition.name <$> fields) ++ (Utils.coordsHeader <$> fields))
  ∧ (FieldDefinition.name f ∉ FieldDefinition.name <$> fields)
  ∧ (FieldDefinition.name f ∉ Utils.coordsHeader <$> fields)
  ∧ (Utils.coordsHeader f ∉ FieldDefinition.name <$> fields)
  ∧ (Utils.coordsHeader f ∉ Utils.coordsHeader <$> fields)
  ∧ FieldDefinition.name f ≠ Utils.coordsHeader f.
Proof.
  rewrite !fmap_cons. rewrite !NoDup_app, !NoDup_cons.
  intros ((Hn & Hns) & Hdis & (Hc & Hcs)).
  repeat split; try done.
  - intros x Hx Hx'. apply (Hdis x); by apply elem_of_cons; right.
  - intros Hin. apply (Hdis (FieldDefinition.name f)); apply elem_of_cons;
      [by left|by right].
  - intros Hin. apply (Hdis (Utils.coordsHeader f)); apply elem_of_cons;
      [by right|by left].
  - intros Heq. apply (Hdis (FieldDefinition.name f)); apply elem_of_cons;
      by left.
Qed.

(** With pairwise distinct column headers, the coordinate column of a field
    holds the cell computed from that field's entry, and so does its value
    column unless the field is named [__proto__]. *)
Lemma fillFields_columns (other : Z → string) (doc : DocumentResult.t)
    (fields : list FieldDefinition.t) (f : FieldDefinition.t) :
  NoDup ((FieldDefinition.name <$> fields) ++ (Utils.coordsHeader <$> fields)) →
  f ∈ fields →
  ∀ row,
    (FieldDefinition.name f ≠ "__proto__" →
     Obj.own (foldl (Utils.fillField other doc) row fields) !! FieldDefinition.name f
       = Some (Utils.valueCell (DocumentResult.data doc !! FieldDefinition.key f)))
    ∧ Obj.own (foldl (Utils.fillField other doc) row fields) !! Utils.coordsHeader f
      = Some (Js.VString
                (Utils.coordsCell other
                   (DocumentResult.data doc !! FieldDefinition.key f))).
Proof.
  induction fields as [|f0 fields IH]; intros Hnd Hf row; [by apply elem_of_nil in Hf|].
  apply columns_NoDup_cons in Hnd as (Hnd & Hnn & Hnc & Hcn & Hcc & Hne).
  apply elem_of_cons in Hf as [->|Hf].
  - simpl. rewrite !fillFields_other by done.
    unfold Utils.fillField.
    rewrite (assign_plain _ (Utils.coordsHeader f0)) by apply coordsHeader_not_proto.
    simpl. split.
    + intros Hproto. rewrite lookup_insert_ne by done.
      rewrite assign_plain by done. simpl. apply lookup_insert_eq.
    + apply lookup_insert_eq.
  - simpl. by apply IH.
Qed.

Lemma headers_columns_NoDup (fields : list FieldDefinition.t) :
  NoDup (Utils.headers fields) →
  NoDup ((FieldDefinition.name <$> fields) ++ (Utils.coordsHeader <$> fields)).
Proof.
  unfold Utils.headers. simpl. rewrite !NoDup_cons. tauto.
Qed.




(** *** Falsy values *)








(** *** Export file names *)

Lemma lastIndexOfFrom_spec (c : ascii) (l : list ascii) :
  ∀ i found,
    ((c ∉ l) ∧ Js.lastIndexOfFrom c i l found = found)
    ∨ (∃ j, Js.lastIndexOfFrom c i l found = Some (i + j)
            ∧ l !! j = Some c ∧ c ∉ drop (S j) l).
Proof.
  induction l as [|x l IH]; intros i found.
  - left. split; [apply not_elem_of_nil|done].
  - simpl.
    destruct (IH (S i) (if decide (x = c) then Some i else found))
      as [[Hnot Hres]|(j & Hres & Hj & Hdrop)].
    + destruct (decide (x = c)) as [->|Hx].
      * right. exists 0. rewrite Nat.add_0_r. by rewrite Hres.
      * left. split; [|done]. rewrite not_elem_of_cons. split; [congruence|done].
    + right. exists (S j). rewrite Hres. split; [f_equal; lia|done].
Qed.

Lemma baseOf_extOf_cut (name : string) :
  cutAtLastDot name (Utils.baseOf name) (Utils.extOf name).
Proof.
  unfold cutAtLastDot, Utils.baseOf, Utils.extOf, Js.lastIndexOf.
  destruct (lastIndexOfFrom_spec "." (Js.chars name) 0 None)
    as [[Hnot ->]|(j & -> & Hj & Hdrop)].
  - split; [|by left]. apply chars_inj. rewrite chars_app. apply app_nil_r.
  - simpl. split.
    + apply chars_inj. unfold Js.substring_to, Js.substring_from.
      rewrite chars_app, !chars_str. apply take_drop.
    + right. exists (Js.str (drop (S j) (Js.chars name))).
      rewrite chars_str. split; [|done].
      unfold Js.substring_from. by rewrite (drop_S _ _ _ Hj).
Qed.

Lemma numbered_inj (base ext : string) (m n : nat) :
  Utils.numbered base m ext = Utils.numbered base n ext → m = n.
Proof.
  unfold Utils.numbered. intros H.
  apply (inj (String.app base)) in H.
  apply (inj (String.app "_")) in H.
  apply (f_equal Js.chars) in H. rewrite !chars_app in H.
  apply app_inv_tail, chars_inj in H.
  by apply (inj pretty) in H.
Qed.

Lemma uniqueLoop_Some (fuel : nat) (used : gset string) (base ext : string) :
  ∀ counter name r,
    Utils.uniqueLoop fuel used base ext counter name = Some r →
    (r ∉ used)
    ∧ (((name ∉ used) ∧ r = name)
       ∨ (name ∈ used
          ∧ ∃ n, counter ≤ n ∧ r = Utils.numbered base n ext
                 ∧ ∀ m, counter ≤ m < n → Utils.numbered base m ext ∈ used)).
Proof.
  induction fuel as [|fuel IH]; intros counter name r Hr; [done|].
  simpl in Hr. destruct (decide (name ∈ used)) as [Hin|Hnot].
  - apply IH in Hr as [Hfree [[Hnew ->]|(Hused & n & Hn & -> & Hbelow)]].
    + split; [done|]. right. split; [done|].
      exists counter. split; [done|]. split; [done|]. intros m ?. lia.
    + split; [done|]. right. split; [done|].
      exists n. split; [lia|]. split; [done|].
      intros m Hm. destruct (decide (m = counter)) as [->|?]; [done|].
      apply Hbelow. lia.
  - injection Hr as <-. split; [done|]. by left.
Qed.

Lemma uniqueLoop_None (fuel : nat) (used : gset string) (base ext : string) :
  ∀ counter name,
    Utils.uniqueLoop (S fuel) used base ext counter name = None →
    ∀ m, counter ≤ m < counter + fuel → Utils.numbered base m ext ∈ used.
Proof.
  induction fuel as [|fuel IH]; intros counter name Hnone m Hm; [lia|].
  change (Utils.uniqueLoop (S (S fuel)) used base ext counter name)
    with (if decide (name ∈ used)
          then Utils.uniqueLoop (S fuel) used base ext (S counter)
                 (Utils.numbered base counter ext)
          else Some name) in Hnone.
  destruct (decide (name ∈ used)) as [Hin|Hnot]; [|done].
  destruct (decide (m = counter)) as [->|Hne].
  - simpl in Hnone.
    by destruct (decide (Utils.numbered base counter ext ∈ used)).
  - apply (IH _ _ Hnone). lia.
Qed.

(** More distinct candidates than used names: one of them is free. *)
Lemma candidates_not_all_used (used : gset string) (base ext : string)
    (counter : nat) :
  ¬ (∀ m, counter ≤ m < counter + S (size used) →
          Utils.numbered base m ext ∈ used).
Proof.
  intros Hall.
  set (cands := (λ m, Utils.numbered base m ext) <$> seq counter (S (size used))).
  assert (Hnd : NoDup cands).
  { apply NoDup_fmap_2_strong; [|apply NoDup_seq].
    intros m n _ _. apply numbered_inj. }
  assert (Hsub : cands ⊆+ elements used).
  { apply NoDup_submseteq; [done|].
    intros x Hx. apply elem_of_elements.
    apply list_elem_of_fmap in Hx as (m & -> & Hm).
    apply elem_of_seq in Hm. apply Hall. lia. }
  apply submseteq_length in Hsub.
  subst cands. rewrite length_fmap, length_seq in Hsub.
  unfold size, set_size in Hsub. simpl in Hsub. lia.
Qed.

Lemma uniqueName_total (used : gset string) (name : string) :
  ∃ r, Utils.uniqueName used name = Some r
       ∧ resolvedAs used name r.
Proof.
  unfold Utils.uniqueName.
  destruct (Utils.uniqueLoop (size used + 2) used (Utils.baseOf name)
              (Utils.extOf name) 1 name) as [r|] eqn:E.
  - exists r. split; [done|]. by apply uniqueLoop_Some in E.
  - exfalso. replace (size used + 2) with (S (S (size used))) in E by lia.
    apply (candidates_not_all_used used (Utils.baseOf name) (Utils.extOf name) 1).
    by apply (uniqueLoop_None _ _ _ _ _ _ E).
Qed.

Lemma addDocuments_names (documents : list DocumentResult.t) :
  ∀ acc,
    (λ acc', fst <$> Utils.docsFolder acc') <$> Utils.addDocuments acc documents
    = ((fst <$> Utils.docsFolder acc) ++.)
        <$> resolveFrom (Utils.usedFilenames acc)
              (DocumentResult.fileName <$> documents).
Proof.
  induction documents as [|doc rest IH]; intros acc.
  - simpl. by rewrite app_nil_r.
  - simpl. unfold Utils.addDocument.
    destruct (Utils.uniqueName (Utils.usedFilenames acc) (DocumentResult.fileName doc))
      as [u|]; [|done].
    simpl. rewrite IH. simpl.
    destruct (resolveFrom _ _) as [names|]; [|done].
    simpl. by rewrite fmap_app, <- app_assoc.
Qed.

Lemma resolvedNames_resolveFrom (documents : list DocumentResult.t) :
  Utils.resolvedNames documents
    = resolveFrom ∅ (DocumentResult.fileName <$> documents).
Proof.
  unfold Utils.resolvedNames, Utils.resolveNames.
  rewrite addDocuments_names. simpl.
  by destruct (resolveFrom _ _).
Qed.

(** The walk always ends, gives one name per file name, never a name it has
    given or found taken before, and each name by the rule. *)
Lemma resolveFrom_spec (names : list string) :
  ∀ (taken : list string),
    ∃ rs, resolveFrom (list_to_set taken) names = Some rs
          ∧ length rs = length names
          ∧ NoDup rs
          ∧ (∀ r, r ∈ rs → r ∉ taken)
          ∧ ∀ i name r, names !! i = Some name → rs !! i = Some r →
              resolvedAs (list_to_set (taken ++ take i rs)) name r.
Proof.
  induction names as [|name rest IH]; intros taken.
  - exists []. split; [done|]. split; [done|]. split; [constructor|].
    split; [by intros r ?%elem_of_nil|]. by intros [|i] name r ? ?.
  - simpl.
    destruct (uniqueName_total (list_to_set taken) name) as (u & -> & Hu).
    simpl.
    destruct (IH (u :: taken)) as (rs & Hrs & Hlen & Hnd & Hfresh & Hrule).
    simpl in Hrs. rewrite Hrs. simpl.
    exists (u :: rs). split; [done|]. split; [simpl; by rewrite Hlen|].
    split; [|split].
    + constructor; [|done]. intros Hin. apply (Hfresh _ Hin). left.
    + intros r [->|Hin]%elem_of_cons.
      * destruct Hu as [Hu _]. by rewrite elem_of_list_to_set in Hu.
      * intros Ht. apply (Hfresh _ Hin). by right.
    + intros [|i] name' r Hname Hr; simplify_eq/=.
      * by rewrite app_nil_r.
      * specialize (Hrule i name' r Hname Hr).
        replace (list_to_set (taken ++ u :: take i rs) : gset string)
          with (list_to_set ((u :: taken) ++ take i rs) : gset string); [done|].
        apply set_eq. intros x.
        rewrite !elem_of_list_to_set, !elem_of_app, !elem_of_cons.
        tauto.
Qed.

(** C5. The export gives every document a name, in document order. The
    names are pairwise distinct. The name of a document is its file name if
    no earlier document of this export got that name; otherwise it is
    [base_<n>ext] for the least [n >= 1] whose name is still free, where
    [base] and [ext] cut the file name at its last dot ([ext] is empty when
    there is none). Three documents named ["a.pdf"] get ["a.pdf"],
    ["a_1.pdf"], ["a_2.pdf"]. *)
Theorem export_names_deduplicated (documents : list DocumentResult.t) :
  ∃ names,
    Utils.resolvedNames documents = Some names
    ∧ length names = length documents
    ∧ NoDup names
    ∧ (∀ i doc r, documents !! i = Some doc → names !! i = Some r →
         resolvedAs (list_to_set (take i names)) (DocumentResult.fileName doc) r
         ∧ cutAtLastDot (DocumentResult.fileName doc)
             (Utils.baseOf (DocumentResult.fileName doc))
             (Utils.extOf (DocumentResult.fileName doc)))
    ∧ (DocumentResult.fileName <$> documents = ["a.pdf"; "a.pdf"; "a.pdf"] →
       names = ["a.pdf"; "a_1.pdf"; "a_2.pdf"]).
Proof.
  rewrite resolvedNames_resolveFrom.
  destruct (resolveFrom_spec (DocumentResult.fileName <$> documents) [])
    as (rs & Hrs & Hlen & Hnd & _ & Hrule).
  simpl in Hrs. exists rs. split; [done|].
  split; [by rewrite Hlen, length_fmap|]. split; [done|]. split.
  - intros i doc r Hdoc Hr. split; [|apply baseOf_extOf_cut].
    apply (Hrule i (DocumentResult.fileName doc) r); [|done].
    by rewrite list_lookup_fmap, Hdoc.
  - intros Hnames. rewrite Hnames in Hrs.
    vm_compute in Hrs. by injection Hrs as <-.
Qed.

Lemma export_names_deduplicated_witness :
  Utils.resolvedNames [sampleDoc "d1" success; sampleDoc "d2" idle; sampleDoc "d3" error]
    = Some ["a.pdf"; "a_1.pdf"; "a_2.pdf"].
Proof.
  destruct (export_names_deduplicated
              [sampleDoc "d1" success; sampleDoc "d2" idle; sampleDoc "d3" error])
    as (names & Hnames & _ & _ & _ & Habc).
  rewrite Hnames. f_equal. apply Habc. reflexivity.
Defined.

(** *** The table of a report *)

Lemma parseLines_prose (prose : list string) :
  Forall proseLine prose →
  ∀ rest data,
    Utils.parseLines (prose ++ rest) data false = Utils.parseLines rest data false.
Proof.
  induction 1 as [|line prose Hline _ IH]; intros rest data; [done|].
  simpl. unfold proseLine in Hline. by rewrite Hline.
Qed.

Lemma parseLines_no_table (prose : list string) :
  Forall proseLine prose →
  ∀ data tableStarted, Utils.parseLines prose data tableStarted = data.
Proof.
  induction 1 as [|line prose Hline _ IH]; intros data tableStarted; [done|].
  simpl. unfold proseLine in Hline. rewrite Hline.
  by destruct (tableStarted && bool_decide (Js.trim line = "")).
Qed.

Lemma tableRows_cons (line : string) (tbl : list string) :
  tableRows (line :: tbl)
    = if Utils.isSeparatorLine (Js.trim line) then tableRows tbl
      else Utils.rowCells (Js.trim line) :: tableRows tbl.
Proof.
  unfold tableRows. rewrite fmap_cons.
  destruct (Utils.isSeparatorLine (Js.trim line)) eqn:E.
  - rewrite filter_cons_False; [done|]. congruence.
  - by rewrite filter_cons_True.
Qed.

Lemma parseLines_table (tbl : list string) :
  Forall tableLine tbl →
  ∀ rest data tableStarted,
    Utils.parseLines (tbl ++ rest) data tableStarted
      = Utils.parseLines rest (data ++ tableRows tbl)
          (match tableRows tbl with [] => tableStarted | _ => true end).
Proof.
  induction 1 as [|line tbl Hline _ IH]; intros rest data tableStarted.
  - simpl. by rewrite app_nil_r.
  - simpl. unfold tableLine in Hline. rewrite Hline, tableRows_cons.
    destruct (Utils.isSeparatorLine (Js.trim line)); [apply IH|].
    rewrite IH, <- app_assoc. simpl. by destruct (tableRows tbl).
Qed.

Lemma parseLines_blank (blank : string) (rest : list string)
    (data : list (list string)) :
  Js.trim blank = "" →
  Utils.parseLines (blank :: rest) data true = data
  ∧ Utils.parseLines (blank :: rest) data false = Utils.parseLines rest data false.
Proof. intros Hblank. simpl. by rewrite Hblank. Qed.

Lemma splitChars_nosep (sep : ascii) (c : list ascii) :
  sep ∉ c → Js.splitChars sep c = [c].
Proof.
  induction c as [|x c IH]; intros Hsep; [done|].
  apply not_elem_of_cons in Hsep as [Hx Hc].
  simpl. rewrite decide_False by done. by rewrite IH.
Qed.

Lemma splitChars_app_sep (sep : ascii) (c l : list ascii) :
  sep ∉ c → Js.splitChars sep (c ++ sep :: l) = c :: Js.splitChars sep l.
Proof.
  induction c as [|x c IH]; intros Hsep.
  - simpl. by rewrite decide_True.
  - apply not_elem_of_cons in Hsep as [Hx Hc].
    simpl. rewrite decide_False by done. by rewrite IH.
Qed.

Lemma chars_join_cons (sep x y : string) (l : list string) :
  Js.chars (Js.join sep (x :: y :: l))
    = Js.chars x ++ Js.chars sep ++ Js.chars (Js.join sep (y :: l)).
Proof.
  change (Js.join sep (x :: y :: l)) with (x +:+ sep +:+ Js.join sep (y :: l)).
  by rewrite !chars_app.
Qed.

Lemma splitChars_pipe_join (cells : list string) :
  cells ≠ [] →
  Forall (λ cell, "|"%char ∉ Js.chars cell) cells →
  Js.splitChars "|" (Js.chars (Js.join "|" cells) ++ ["|"%char])
    = (Js.chars <$> cells) ++ [[]].
Proof.
  intros Hne Hcells. induction Hcells as [|cell cells Hcell Hcells IH]; [done|].
  destruct cells as [|cell' cells].
  - simpl. by rewrite splitChars_app_sep.
  - rewrite chars_join_cons. change (Js.chars "|") with ["|"%char].
    rewrite <- !app_assoc. cbn [app].
    rewrite splitChars_app_sep by done. by rewrite IH.
Qed.

(** The cells of a row, as the code cuts them. *)
Lemma rowCells_pipeRow (cells : list string) :
  cells ≠ [] →
  Forall (λ cell, "|"%char ∉ Js.chars cell) cells →
  Utils.rowCells (pipeRow cells) = Js.trim <$> cells.
Proof.
  intros Hne Hcells. unfold Utils.rowCells, pipeRow, Js.split. f_equal.
  rewrite !chars_app. change (Js.chars "|") with ["|"%char].
  cbn [app].
  change (Js.splitChars "|" ("|"%char :: ?l)) with ([] :: Js.splitChars "|" l).
  rewrite splitChars_pipe_join by done.
  unfold Js.slice_1_m1.
  rewrite fmap_cons, fmap_app, <- list_fmap_compose.
  rewrite (list_fmap_ext (Js.str ∘ Js.chars) id cells)
    by (intros; apply str_chars).
  rewrite list_fmap_id.
  cbn [length fmap list_fmap]. rewrite length_app. cbn [length].
  replace (S (length cells + 1) - 1) with (S (length cells)) by lia.
  rewrite firstn_cons, take_app_length. done.
Qed.

Lemma dropWhile_dashes (l : list ascii) :
  Forall (λ c, c = "-"%char) l → Js.dropWhile Js.isWhiteSpace l = l.
Proof. by intros [|c l' -> _]. Qed.

(** A line of pipes and dashes only, with a dash, is a separator row. *)
Lemma dashes_isSeparatorLine (line : string) :
  Forall (λ c, c = "|"%char ∨ c = "-"%char) (Js.chars line) →
  "-"%char ∈ Js.chars line →
  Utils.isSeparatorLine line = true.
Proof.
  intros Hchars Hdash. unfold Utils.isSeparatorLine, Js.removeChar, Js.trim.
  rewrite chars_str.
  set (l := filter (λ x, x ≠ "|"%char) (Js.chars line)).
  assert (Hl : Forall (λ c, c = "-"%char) l).
  { subst l. apply Forall_forall. intros c [Hc Hin]%list_elem_of_filter.
    rewrite Forall_forall in Hchars. by destruct (Hchars c Hin). }
  assert (Hne : "-"%char ∈ l).
  { subst l. apply list_elem_of_filter. by split. }
  assert (Htrim : Js.trimChars l = l).
  { unfold Js.trimChars. rewrite (dropWhile_dashes l Hl).
    rewrite dropWhile_dashes by (by apply List.Forall_rev).
    apply rev_involutive. }
  rewrite Htrim. unfold Js.allDashes. rewrite chars_str.
  destruct l as [|c l']; [by apply elem_of_nil in Hne|].
  apply forallb_forall. intros x Hx. apply bool_decide_eq_true_2.
  rewrite List.Forall_forall in Hl. by apply Hl.
Qed.

Lemma parseLines_first_table (pre tbl rest : list string) (blank : string) :
  Forall proseLine pre → Forall tableLine tbl → Js.trim blank = "" →
  Utils.parseLines (pre ++ tbl ++ blank :: rest) [] false
    = match tableRows tbl with
      | [] => Utils.parseLines rest [] false
      | rows => rows
      end.
Proof.
  intros Hpre Htbl Hblank.
  rewrite parseLines_prose, parseLines_table by done. simpl.
  destruct (parseLines_blank blank rest (tableRows tbl) Hblank) as [Hstop Hgo].
  destruct (tableRows tbl) as [|row rows]; [apply Hgo|apply Hstop].
Qed.

(** X23. Let the lines of the report be some prose, then a block of table
    lines, then a blank line, then anything. If the block has a row that
    fails the parser's own test for separator rows, the parser returns
    exactly the rows of the block that fail this test, in order, each row
    cut into its trimmed cells: parsing stops at the blank line, so nothing
    after it is returned, not even a further table. If what follows the
    blank line holds no table line, this is all there is to return also
    when every row of the block passes the test (then the parser returns
    [null]). A row of pipes and dashes only, such as [|---|---|], passes
    the test; a row [|c1|...|cn|] is cut into the trimmed [c1 ... cn]. *)
Theorem parseMarkdownTable_first_table
    (markdown : string) (pre tbl rest : list string) (blank : string) :
  Js.split "010" markdown = pre ++ tbl ++ blank :: rest →
  Forall proseLine pre →
  Forall tableLine tbl →
  Js.trim blank = "" →
  let rows :=
    Utils.rowCells <$>
      filter (λ line, Utils.isSeparatorLine line = false) (Js.trim <$> tbl) in
  (rows ≠ [] → Utils.parseMarkdownTable markdown = Some rows)
  ∧ (Forall proseLine rest →
     Utils.parseMarkdownTable markdown
       = match rows with [] => None | _ => Some rows end)
  ∧ (∀ line, Forall (λ c, c = "|"%char ∨ c = "-"%char) (Js.chars line) →
       "-"%char ∈ Js.chars line → Utils.isSeparatorLine line = true)
  ∧ (∀ cells, cells ≠ [] → Forall (λ cell, "|"%char ∉ Js.chars cell) cells →
       Utils.rowCells ("|" +:+ Js.join "|" cells +:+ "|") = Js.trim <$> cells).
Proof.
  intros Hsplit Hpre Htbl Hblank rows.
  pose proof (parseLines_first_table pre tbl rest blank Hpre Htbl Hblank) as Hparse.
  fold (tableRows tbl) in rows. fold rows in Hparse.
  split; [|split; [|split]].
  - intros Hrows. unfold Utils.parseMarkdownTable. rewrite Hsplit, Hparse.
    destruct rows as [|row rows']; [done|].
    by rewrite bool_decide_eq_true_2 by (simpl; lia).
  - intros Hrest. unfold Utils.parseMarkdownTable. rewrite Hsplit, Hparse.
    destruct rows as [|row rows'].
    + by rewrite parseLines_no_table.
    + by rewrite bool_decide_eq_true_2 by (simpl; lia).
  - apply dashes_isSeparatorLine.
  - apply rowCells_pipeRow.
Qed.

Lemma parseMarkdownTable_first_table_witness :
  Utils.parseMarkdownTable sampleReport
    = Some [["Invoice"; "Amount"]; ["INV-001"; "120"]].
Proof.
  destruct (parseMarkdownTable_first_table sampleReport
              ["Findings:"]
              ["| Invoice | Amount |"; "|---|---|"; "| INV-001 | 120 |"]
              ["One invoice matched."; "| not | part |"]
              "")
    as (Hrows & _).
  - reflexivity.
  - repeat constructor.
  - repeat constructor.
  - reflexivity.
  - apply Hrows. discriminate.
Defined.

(** C6. The parser does not leave out every separator row. Its test for a
    separator row removes the pipes and asks for a run of dashes, so the
    usual separator row with blanks around the dashes, [| --- | --- |],
    whose cells are all runs of dashes, fails it, while [|---|---|] passes.
    Let the lines of the report be some prose, a block of table lines, a
    blank line, then anything: every row of the block whose cells are all
    runs of dashes but which fails that test is returned among the rows, as
    cells of dashes. For the report made of the three table lines
    [| Invoice | Amount |], [| --- | --- |], [| INV-001 | 120 |], a blank
    line and a line of prose, the parser returns three rows, the second of
    which is [---], [---], and not the two rows of the table. *)
Theorem padded_separator_row_is_returned :
  (∀ (markdown : string) (pre tbl rest : list string) (blank sep : string),
      Js.split "010" markdown = pre ++ tbl ++ blank :: rest →
      Forall proseLine pre →
      Forall tableLine tbl →
      Js.trim blank = "" →
      sep ∈ tbl →
      allDashCells (Js.trim sep) = true →
      Utils.isSeparatorLine (Js.trim sep) = false →
      ∃ rows, Utils.parseMarkdownTable markdown = Some rows
              ∧ Utils.rowCells (Js.trim sep) ∈ rows
              ∧ Forall (λ cell, Js.allDashes cell = true)
                  (Utils.rowCells (Js.trim sep)))
  ∧ Js.split "010" paddedReport
    = ["| Invoice | Amount |"; "| --- | --- |"; "| INV-001 | 120 |"; "";
       "One invoice matched."]
  ∧ allDashCells "| --- | --- |" = true
  ∧ Utils.isSeparatorLine "| --- | --- |" = false
  ∧ Utils.isSeparatorLine "|---|---|" = true
  ∧ Utils.parseMarkdownTable paddedReport
    = Some [["Invoice"; "Amount"]; ["---"; "---"]; ["INV-001"; "120"]]
  ∧ dataRowsOf ["| Invoice | Amount |"; "| --- | --- |"; "| INV-001 | 120 |"]
    = [["Invoice"; "Amount"]; ["INV-001"; "120"]]
  ∧ Utils.parseMarkdownTable paddedReport
    ≠ Some (dataRowsOf
              ["| Invoice | Amount |"; "| --- | --- |"; "| INV-001 | 120 |"]).
Proof.
  split; [|by repeat split].
  intros markdown pre tbl rest blank sep Hsplit Hpre Htbl Hblank Hsep Hdash Htest.
  assert (Hin : Utils.rowCells (Js.trim sep) ∈ tableRows tbl).
  { unfold tableRows. apply list_elem_of_fmap. exists (Js.trim sep).
    split; [done|]. apply list_elem_of_filter. split; [done|].
    apply list_elem_of_fmap. eauto. }
  exists (tableRows tbl). split; [|split; [done|]].
  - unfold Utils.parseMarkdownTable.
    rewrite Hsplit, (parseLines_first_table pre tbl rest blank) by done.
    destruct (tableRows tbl) as [|row rows]; [by apply elem_of_nil in Hin|].
    by rewrite bool_decide_eq_true_2 by (simpl; lia).
  - unfold allDashCells in Hdash.
    destruct (Utils.rowCells (Js.trim sep)) as [|cell cells]; [done|].
    apply Forall_forall. intros c Hc.
    rewrite forallb_forall in Hdash. apply Hdash.
    by apply list_elem_of_In.
Qed.

Lemma padded_separator_row_is_returned_witness :
  ∃ rows, Utils.parseMarkdownTable paddedReport = Some rows
          ∧ Utils.rowCells (Js.trim "| --- | --- |") ∈ rows
          ∧ Forall (λ cell, Js.allDashes cell = true)
              (Utils.rowCells (Js.trim "| --- | --- |")).
Proof.
  destruct padded_separator_row_is_returned as [Hgeneral _].
  apply (Hgeneral paddedReport []
           ["| Invoice | Amount |"; "| --- | --- |"; "| INV-001 | 120 |"]
           ["One invoice matched."] "" "| --- | --- |").
  - reflexivity.
  - constructor.
  - repeat constructor.
  - reflexivity.
  - right. left.
  - reflexivity.
  - reflexivity.
Defined.

(** *** Worked examples *)

Example sanitizeKey_invoice_number :
  Utils.sanitizeKey "Invoice Number" = "invoice_number".
Proof. reflexivity. Qed.

Example getNextColor_wraps :
  Utils.getNextColor 10 = Utils.getNextColor 0
  ∧ Utils.getNextColor 13 = "#f59e0b".
Proof. split; reflexivity. Qed.

Example padded_separator_kept :
  Utils.parseMarkdownTable "| --- | --- |" = Some [["---"; "---"]].
Proof. reflexivity. Qed.

Example name_without_dot :
  Utils.resolvedNames [withData ∅ (DocumentResult.mk "d1" sampleFile "README" "" None idle None ∅);
                       withData ∅ (DocumentResult.mk "d2" sampleFile "README" "" None idle None ∅)]
    = Some ["README"; "README_1"].
Proof. reflexivity. Qed.

Example invoice_scenario :
  let fields := [FieldDefinition.mk "1" "Invoice Number" "invoice_number" "#ef4444"] in
  let doc := withData {[ "invoice_number" :=
                           ExtractedValue.mk (Js.VString "INV-001")
                             (Some [50; 60; 90; 140]%Z) ]}
               (sampleDoc "d1" success) in
  Utils.dataRow noBigNumbers fields doc
    = {[ "File Name" := Js.VString "a.pdf";
         "Status" := Js.VString "success";
         "Invoice Number" := Js.VString "INV-001";
         "Invoice Number (Coords)" := Js.VString "[50,60,90,140]" ]}.
Proof. vm_compute. reflexivity. Qed.

(* ===================================================================== *)
(** ** Further properties                                                  *)
(* ===================================================================== *)

(** *** The field registry *)

Lemma filter_all {A} (P : A → Prop) `{∀ x, Decision (P x)} (l : list A) :
  Forall P l → filter P l = l.
Proof.
  induction 1 as [|x l Hx _ IH]; [done|].
  by rewrite filter_cons_True, IH.
Qed.

Lemma filter_twice {A} (P : A → Prop) `{∀ x, Decision (P x)} (l : list A) :
  filter P (filter P l) = filter P l.
Proof.
  apply filter_all, Forall_forall. by intros x [? _]%list_elem_of_filter.
Qed.

(** X1. [removeField] keeps exactly the fields with another identifier, in
    their order; it touches nothing else of the state, does nothing when no
    field has the identifier, and doing it twice is doing it once. *)
Theorem removeField_removes_by_id (id : string) (st : App.State) :
  (∀ f, f ∈ App.fields (App.removeField id st)
        ↔ f ∈ App.fields st ∧ FieldDefinition.id f ≠ id)
  ∧ App.fields (App.removeField id st) `sublist_of` App.fields st
  ∧ App.documents (App.removeField id st) = App.documents st
  ∧ App.newFieldName (App.removeField id st) = App.newFieldName st
  ∧ App.removeField id (App.removeField id st) = App.removeField id st
  ∧ ((id ∉ FieldDefinition.id <$> App.fields st) → App.removeField id st = st).
Proof.
  split; [|split; [|split; [|split; [|split]]]].
  - intros f. simpl. rewrite list_elem_of_filter. tauto.
  - apply sublist_filter.
  - done.
  - done.
  - unfold App.removeField, App.setFields. simpl. by rewrite filter_twice.
  - intros Hid. unfold App.removeField, App.setFields.
    rewrite filter_all; [by destruct st|].
    apply Forall_forall. intros f Hf Heq. apply Hid.
    apply list_elem_of_fmap. by exists f.
Qed.

Lemma removeField_removes_by_id_witness :
  App.removeField "missing" App.initialState = App.initialState.
Proof.
  apply (removeField_removes_by_id "missing" App.initialState).
  apply (bool_decide_unpack _). vm_compute. exact I.
Defined.

Lemma dropWhile_nil_iff {A} (p : A → bool) (l : list A) :
  Js.dropWhile p l = [] ↔ Forall (λ x, p x = true) l.
Proof.
  induction l as [|x l IH]; simpl.
  - split; [constructor|done].
  - destruct (p x) eqn:E.
    + rewrite IH. split; [by constructor|by inversion 1].
    + split; [done|]. inversion 1; congruence.
Qed.

Lemma dropWhile_Forall {A} (p : A → bool) (l : list A) :
  Forall (λ x, p x = true) (Js.dropWhile p l) → Forall (λ x, p x = true) l.
Proof.
  induction l as [|x l IH]; simpl; [done|].
  destruct (p x) eqn:E; [by constructor; auto|]. by inversion 1.
Qed.

Lemma trim_empty_iff (s : string) :
  Js.trim s = "" ↔ Forall (λ c, Js.isWhiteSpace c = true) (Js.chars s).
Proof.
  unfold Js.trim, Js.trimChars. split.
  - intros H. apply (f_equal Js.chars) in H. rewrite chars_str in H.
    change (Js.chars "") with (@nil ascii) in H.
    apply (f_equal (@rev ascii)) in H. rewrite rev_involutive in H. simpl in H.
    apply dropWhile_nil_iff, List.Forall_rev in H. rewrite rev_involutive in H.
    by apply dropWhile_Forall.
  - intros H. apply dropWhile_nil_iff in H. by rewrite H.
Qed.

(** X2. [addField] is a no-op exactly on a name made of white space only
    (the empty name included). Any other name adds one field at the end,
    with the identifier drawn, the name as typed, untrimmed, and its
    sanitized key, and clears the input; the documents are untouched. *)
Theorem addField_rejects_blank_names (uuid : string) (st : App.State) :
  (Forall (λ c, Js.isWhiteSpace c = true) (Js.chars (App.newFieldName st)) →
     App.addField uuid st = st)
  ∧ (¬ Forall (λ c, Js.isWhiteSpace c = true) (Js.chars (App.newFieldName st)) →
     ∃ f, App.fields (App.addField uuid st) = App.fields st ++ [f]
          ∧ FieldDefinition.id f = uuid
          ∧ FieldDefinition.name f = App.newFieldName st
          ∧ FieldDefinition.key f = Utils.sanitizeKey (App.newFieldName st)
          ∧ App.newFieldName (App.addField uuid st) = ""
          ∧ App.documents (App.addField uuid st) = App.documents st).
Proof.
  split.
  - intros Hblank. apply trim_empty_iff in Hblank.
    apply addField_rejected. by rewrite Hblank.
  - intros Hname.
    assert (Htruthy : Js.truthy (Js.trim (App.newFieldName st)) = true).
    { destruct (Js.trim (App.newFieldName st)) eqn:E; [|done].
      by apply trim_empty_iff in E. }
    eexists. split; [by apply addField_accepted|].
    unfold App.addField. rewrite Htruthy. done.
Qed.

Lemma addField_rejects_blank_names_witness :
  App.addField "u" (App.setNewFieldName "   " App.initialState)
    = App.setNewFieldName "   " App.initialState.
Proof.
  apply (addField_rejects_blank_names "u" (App.setNewFieldName "   " App.initialState)).
  repeat constructor.
Defined.

(** X3. A key has as many code units as the name, and the case of the
    letters A to Z does not matter: a name and the name with these letters
    in lower case have the same key, so two names that differ in the case
    of such letters only collide on their key. *)
Theorem sanitizeKey_ignores_case (n : string) :
  length (Js.chars (Utils.sanitizeKey n)) = length (Js.chars n)
  ∧ length (Js.chars (asciiLower n)) = length (Js.chars n)
  ∧ Utils.sanitizeKey (asciiLower n) = Utils.sanitizeKey n
  ∧ (∀ m, asciiLower m = asciiLower n →
          Utils.sanitizeKey m = Utils.sanitizeKey n).
Proof.
  assert (Hlower : ∀ s, Utils.sanitizeKey (asciiLower s) = Utils.sanitizeKey s).
  { intros s. apply chars_inj. rewrite !sanitizeKey_chars.
    unfold asciiLower. rewrite chars_str, <- list_fmap_compose.
    apply list_fmap_ext. intros _ c _. by_cases_on_char c. }
  split; [by rewrite sanitizeKey_chars, length_fmap|].
  split; [unfold asciiLower; by rewrite chars_str, length_fmap|].
  split; [done|].
  intros m Hm. by rewrite <- (Hlower m), Hm, Hlower.
Qed.

Lemma sanitizeKey_ignores_case_witness :
  Utils.sanitizeKey "TOTAL amount" = Utils.sanitizeKey "Total Amount".
Proof.
  apply (sanitizeKey_ignores_case "Total Amount"). reflexivity.
Defined.

Lemma COLORS_NoDup : NoDup COLORS.
Proof. apply (bool_decide_unpack _). vm_compute. exact I. Qed.

(** X4. [getNextColor] always answers with a colour of the palette, and two
    indices get the same colour exactly when they are equal modulo the size
    of the palette, ten. *)
Theorem getNextColor_period (i j : nat) :
  Utils.getNextColor i ∈ COLORS
  ∧ (Utils.getNextColor i = Utils.getNextColor j ↔ i `mod` 10 = j `mod` 10).
Proof.
  assert (Hlk : ∀ k, COLORS !! (k `mod` 10) = Some (Utils.getNextColor k)).
  { intros k. unfold Utils.getNextColor. apply list_lookup_lookup_total_lt.
    apply Nat.mod_upper_bound. done. }
  split.
  - apply list_elem_of_lookup. eauto.
  - split.
    + intros Heq. apply (NoDup_lookup COLORS _ _ (Utils.getNextColor i));
        [apply COLORS_NoDup|done|]. rewrite Heq. apply Hlk.
    + intros Heq. pose proof (Hlk i) as Hi. rewrite Heq, Hlk in Hi.
      by injection Hi.
Qed.

(** *** Objects built by assigning properties in a loop *)

Lemma foldl_insert_other {A V} (kf : A → string) (vf : A → V) (l : list A)
    (k : string) :
  (k ∉ kf <$> l) →
  ∀ m : gmap string V, foldl (λ m a, <[kf a := vf a]> m) m l !! k = m !! k.
Proof.
  induction l as [|a l IH]; intros Hk m; [done|].
  rewrite fmap_cons, not_elem_of_cons in Hk. destruct Hk as [Hne Hk].
  simpl. rewrite IH by done. by rewrite lookup_insert_ne.
Qed.

Lemma foldl_insert_last {A V} (kf : A → string) (vf : A → V)
    (l1 l2 : list A) (a : A) (m : gmap string V) :
  (kf a ∉ kf <$> l2) →
  foldl (λ m a, <[kf a := vf a]> m) m (l1 ++ a :: l2) !! kf a = Some (vf a).
Proof.
  intros Hk. rewrite foldl_app. simpl.
  rewrite foldl_insert_other by done. apply lookup_insert_eq.
Qed.



Lemma foldl_assign_other {A V} (kind : V → Obj.Kind) (kf : A → string)
    (vf : A → V) (l : list A) (k : string) :
  (k ∉ kf <$> l) →
  ∀ o, Obj.own (foldl (λ o a, Obj.assign kind (kf a) (vf a) o) o l) !! k
       = Obj.own o !! k.
Proof.
  induction l as [|a l IH]; intros Hk o; [done|].
  rewrite fmap_cons, not_elem_of_cons in Hk. destruct Hk as [Hne Hk].
  simpl. rewrite IH by done. by apply assign_own_other.
Qed.

Lemma foldl_assign_last {A V} (kind : V → Obj.Kind) (kf : A → string)
    (vf : A → V) (l1 l2 : list A) (a : A) (o : Obj.t V) :
  kf a ≠ "__proto__" →
  (kf a ∉ kf <$> l2) →
  Obj.own (foldl (λ o a, Obj.assign kind (kf a) (vf a) o) o (l1 ++ a :: l2)) !! kf a
    = Some (vf a).
Proof.
  intros Hproto Hk. rewrite foldl_app. simpl.
  rewrite foldl_assign_other by done. rewrite assign_plain by done.
  apply lookup_insert_eq.
Qed.

(** When no value assigned is [null], an object literal keeps its prototype,
    and the key [__proto__] never becomes a property of its own. *)
Lemma foldl_assign_dom {A V} (kind : V → Obj.Kind) (kf : A → string)
    (vf : A → V) (l : list A) :
  (∀ a, kind (vf a) ≠ Obj.Null) →
  ∀ o, Obj.inheritsProto o = true →
       Obj.inheritsProto (foldl (λ o a, Obj.assign kind (kf a) (vf a) o) o l) = true
       ∧ dom (Obj.own (foldl (λ o a, Obj.assign kind (kf a) (vf a) o) o l))
         = dom (Obj.own o) ∪ (list_to_set (kf <$> l) ∖ {["__proto__"]}).
Proof.
  intros Hkind. induction l as [|a l IH]; intros o Ho.
  - split; [done|]. simpl. apply set_eq. intros x.
    rewrite elem_of_union, elem_of_difference, elem_of_empty. tauto.
  - rewrite fmap_cons. cbn [foldl list_to_set foldr].
    destruct (decide (kf a = "__proto__")) as [Ha|Ha].
    + rewrite Ha, assign_proto_kept by done.
      destruct (IH o Ho) as [Hi Hd]. split; [done|]. rewrite Hd.
      apply set_eq. intros x.
      rewrite !elem_of_union, !elem_of_difference, elem_of_union,
        !elem_of_singleton. tauto.
    + rewrite assign_plain by done.
      destruct (IH (Obj.mk (<[kf a := vf a]> (Obj.own o)) (Obj.inheritsProto o)) Ho)
        as [Hi Hd].
      split; [done|]. rewrite Hd. cbn [Obj.own]. rewrite dom_insert_L.
      apply set_eq. intros x.
      rewrite !elem_of_union, !elem_of_difference, !elem_of_union,
        !elem_of_singleton.
      split; [|intros [?|[[->|?] ?]]; tauto].
      intros [[->|?]|[? ?]]; tauto.
Qed.



Lemma size_list_to_set_length (l : list string) :
  size (list_to_set l : gset string) ≤ length l.
Proof.
  apply submseteq_length, NoDup_submseteq; [apply NoDup_elements|].
  intros x Hx. by apply elem_of_elements, elem_of_list_to_set in Hx.
Qed.

(** X5. The response schema has one property per distinct key other than
    [__proto__]. Fields with the same such key share one property, described
    by the last of them. A field whose key is [__proto__] adds no property:
    the assignment goes to the prototype of the object. *)
Theorem buildProperties_one_per_key (fields : list FieldDefinition.t) :
  dom (GeminiService.buildProperties fields)
    = list_to_set (FieldDefinition.key <$> fields) ∖ {["__proto__"]}
  ∧ (∀ l1 f l2, fields = l1 ++ f :: l2 →
       FieldDefinition.key f ≠ "__proto__" →
       (FieldDefinition.key f ∉ FieldDefinition.key <$> l2) →
       GeminiService.buildProperties fields !! FieldDefinition.key f
         = Some (FieldDefinition.name f))
  ∧ GeminiService.buildProperties fields !! "__proto__" = None
  ∧ (size (GeminiService.buildProperties fields) ≤ length fields).
Proof.
  unfold GeminiService.buildProperties.
  destruct (foldl_assign_dom (λ _ : string, Obj.Object) FieldDefinition.key
              FieldDefinition.name fields ltac:(done) (Obj.literal ∅) eq_refl)
    as [_ Hdom].
  simpl in Hdom. rewrite dom_empty_L, (left_id_L ∅ (∪)) in Hdom.
  split; [done|]. split; [|split].
  - intros l1 f l2 -> Hproto Hlast.
    by apply (foldl_assign_last _ FieldDefinition.key FieldDefinition.name).
  - apply not_elem_of_dom. rewrite Hdom.
    rewrite elem_of_difference, elem_of_singleton. tauto.
  - rewrite <- size_dom, Hdom.
    etrans; [apply subseteq_size, subseteq_difference_l; reflexivity|].
    etrans; [apply size_list_to_set_length|]. by rewrite length_fmap.
Qed.

Lemma buildProperties_one_per_key_witness :
  GeminiService.buildProperties
    [FieldDefinition.mk "1" "Total" "total" "#ef4444";
     FieldDefinition.mk "2" "TOTAL" "total" "#3b82f6"] !! "total"
  = Some "TOTAL".
Proof.
  destruct (buildProperties_one_per_key
              [FieldDefinition.mk "1" "Total" "total" "#ef4444";
               FieldDefinition.mk "2" "TOTAL" "total" "#3b82f6"])
    as (_ & Hlast & _).
  apply (Hlast [FieldDefinition.mk "1" "Total" "total" "#ef4444"]
               (FieldDefinition.mk "2" "TOTAL" "total" "#3b82f6") []).
  - reflexivity.
  - discriminate.
  - apply not_elem_of_nil.
Defined.

(** *** One extraction *)

Lemma truthy_iff (s : string) : Js.truthy s = true ↔ s ≠ "".
Proof. by destruct s. Qed.

Lemma processDocument_cases (w : World) (doc : DocumentResult.t)
    (fields : list FieldDefinition.t) :
  GeminiService.processDocument w doc fields
    = if GeminiService.hasKey w then
        match readAsDataURL w (DocumentResult.file doc) with
        | None => (Throw FileReadError, [])
        | Some url =>
            let req := Extract (mkExtractRequest
                                  (file_type (DocumentResult.file doc))
                                  (Js.split "," url !! 1)
                                  (FieldDefinition.name <$> fields)
                                  (GeminiService.buildProperties fields)) in
            match generateContent w req with
            | None => (Throw RemoteError, [RemoteCall req; ConsoleError "Gemini Error:"])
            | Some response =>
                match text response with
                | Some t =>
                    if Js.truthy t then
                      match JSON_parse w t with
                      | Some result => (Ok result, [RemoteCall req])
                      | None =>
                          (Throw JsonSyntaxError,
                           [RemoteCall req; ConsoleError "Gemini Error:"])
                      end
                    else (Throw NoResponse, [RemoteCall req; ConsoleError "Gemini Error:"])
                | None => (Throw NoResponse, [RemoteCall req; ConsoleError "Gemini Error:"])
                end
            end
        end
      else (Throw ApiKeyMissing, []).
Proof.
  unfold GeminiService.processDocument.
  destruct (GeminiService.hasKey w); [|done]. simpl.
  destruct (readAsDataURL w (DocumentResult.file doc)) as [url|]; [|done]. simpl.
  unfold GeminiService.callRemote. simpl.
  destruct (generateContent w _) as [response|]; [|done]. simpl.
  destruct (text response) as [t|]; [|done].
  destruct (Js.truthy t); [|done].
  by destruct (JSON_parse w t).
Qed.

(** X6. [processDocument] returns data exactly when the key is set, the
    file can be read, the remote call resolves with a non-empty text and
    that text parses; the data is what the parse gave. It makes at most one
    remote call, and none at all without a key or when the file cannot be
    read. Whenever it fails after having called, the failure is written to
    the console before it is thrown on. *)
Theorem processDocument_success_and_failures (w : World) (doc : DocumentResult.t)
    (fields : list FieldDefinition.t) :
  let out := GeminiService.processDocument w doc fields in
  (∀ result,
     out.1 = Ok result
     ↔ GeminiService.hasKey w = true
       ∧ ∃ url response t,
           readAsDataURL w (DocumentResult.file doc) = Some url
           ∧ generateContent w
               (Extract (mkExtractRequest (file_type (DocumentResult.file doc))
                           (Js.split "," url !! 1)
                           (FieldDefinition.name <$> fields)
                           (GeminiService.buildProperties fields)))
             = Some response
           ∧ text response = Some t ∧ t ≠ ""
           ∧ JSON_parse w t = Some result)
  ∧ length (remoteCalls out.2) ≤ 1
  ∧ (GeminiService.hasKey w = false → out = (Throw ApiKeyMissing, []))
  ∧ (GeminiService.hasKey w = true →
     readAsDataURL w (DocumentResult.file doc) = None →
     out = (Throw FileReadError, []))
  ∧ (∀ e, out.1 = Throw e → remoteCalls out.2 ≠ [] →
       last out.2 = Some (ConsoleError "Gemini Error:")).
Proof.
  intros out. subst out. rewrite processDocument_cases.
  destruct (GeminiService.hasKey w); simpl.
  2:{ split; [|split; [lia|split; [done|split; done]]].
      intros result. split; [done|]. by intros [? _]. }
  destruct (readAsDataURL w (DocumentResult.file doc)) as [url|]; simpl.
  2:{ split; [|split; [lia|split; [done|split; done]]].
      intros result. split; [done|]. by intros (_ & ? & ? & ? & ? & _). }
  destruct (generateContent w _) as [response|] eqn:Hgen; simpl.
  2:{ split; [|split; [lia|split; [done|split; done]]].
      intros result. split; [done|].
      intros (_ & url' & response & t & [= <-] & Hg & _). congruence. }
  destruct (text response) as [t|] eqn:Ht; simpl.
  2:{ split; [|split; [lia|split; [done|split; done]]].
      intros result. split; [done|].
      intros (_ & url' & response' & t & [= <-] & Hg & Ht' & _). congruence. }
  destruct (Js.truthy t) eqn:Htruthy; simpl.
  2:{ split; [|split; [lia|split; [done|split; done]]].
      intros result. split; [done|].
      intros (_ & url' & response' & t' & [= <-] & Hg & Ht' & Hne & _).
      assert (t' = t) as -> by congruence.
      apply truthy_iff in Hne. congruence. }
  destruct (JSON_parse w t) as [parsed|] eqn:Hparse; simpl.
  - split; [|split; [lia|split; [done|split; done]]].
    intros result. split.
    + intros [= <-]. split; [done|]. exists url, response, t.
      by rewrite truthy_iff in Htruthy.
    + intros (_ & url' & response' & t' & [= <-] & Hg & Ht' & _ & Hp).
      assert (t' = t) as -> by congruence. congruence.
  - split; [|split; [lia|split; [done|split; done]]].
    intros result. split; [done|].
    intros (_ & url' & response' & t' & [= <-] & Hg & Ht' & _ & Hp).
    assert (t' = t) as -> by congruence. congruence.
Qed.

Lemma processDocument_success_and_failures_witness :
  GeminiService.processDocument (mkWorld None (λ _, None) (λ _, None) (λ _, None))
    (sampleDoc "d1" idle) App.initialFields
  = (Throw ApiKeyMissing, []).
Proof.
  apply (processDocument_success_and_failures
           (mkWorld None (λ _, None) (λ _, None) (λ _, None))
           (sampleDoc "d1" idle) App.initialFields).
  reflexivity.
Defined.

(** *** A run of the extraction *)

Lemma sameIdentity_refl (d : DocumentResult.t) : sameIdentity d d.
Proof. by repeat split. Qed.

Lemma sameIdentity_trans (d1 d2 d3 : DocumentResult.t) :
  sameIdentity d1 d2 → sameIdentity d2 d3 → sameIdentity d1 d3.
Proof.
  intros (?&?&?&?&?) (?&?&?&?&?). repeat split; congruence.
Qed.

Lemma updateDoc_sameIdentity (id : string) (f : DocumentResult.t → DocumentResult.t)
    (prev0 prev : list DocumentResult.t) :
  (∀ d, sameIdentity d (f d)) →
  Forall2 sameIdentity prev0 prev →
  Forall2 sameIdentity prev0 (App.updateDoc id f prev).
Proof.
  intros Hf Hprev. unfold App.updateDoc. apply Forall2_fmap_r.
  eapply Forall2_impl; [done|]. intros d0 d Hd. simpl.
  destruct (decide (DocumentResult.id d = id)); [|done].
  eapply sameIdentity_trans; [done|apply Hf].
Qed.

Lemma extractionLoop_sameIdentity (env : nat → World)
    (fields : list FieldDefinition.t) (todo : list DocumentResult.t) :
  ∀ i prev0 prev,
    Forall2 sameIdentity prev0 prev →
    Forall2 sameIdentity prev0 (App.extractionLoop env fields i todo prev).1.
Proof.
  induction todo as [|doc rest IH]; intros i prev0 prev Hprev; [done|].
  simpl. destruct (decide (DocumentResult.status doc = success)); [by apply IH|].
  destruct (GeminiService.processDocument (env i) doc fields) as [outcome log].
  match goal with
  | |- context [App.extractionLoop env fields (S i) rest ?p] =>
      assert (Hp : Forall2 sameIdentity prev0 p);
      [|specialize (IH (S i) prev0 p Hp);
        by destruct (App.extractionLoop env fields (S i) rest p)]
  end.
  destruct outcome; apply updateDoc_sameIdentity; try done;
    by apply updateDoc_sameIdentity.
Qed.

(** X7. A run of the extraction neither adds, removes nor reorders
    documents: the document at each position keeps its identifier, file,
    names and preview, whatever the identifiers are. The run changes
    nothing of the state but the documents and the busy flag, which is
    cleared when the run ends. *)
Theorem runExtraction_keeps_documents (env : nat → World) (st : App.State) :
  let st' := (App.runExtraction env st).1 in
  Forall2 sameIdentity (App.documents st) (App.documents st')
  ∧ length (App.documents st') = length (App.documents st)
  ∧ App.fields st' = App.fields st
  ∧ App.referenceData st' = App.referenceData st
  ∧ App.reconcileResult st' = App.reconcileResult st
  ∧ (App.documents st ≠ [] → App.isProcessing st' = false).
Proof.
  intros st'.
  assert (Hrefl : ∀ l, Forall2 sameIdentity l l).
  { intros l. apply Forall2_same_length_lookup. split; [done|].
    intros i d d' Hd Hd'. assert (d = d') as -> by congruence.
    apply sameIdentity_refl. }
  assert (H2 : Forall2 sameIdentity (App.documents st) (App.documents st')).
  { subst st'. unfold App.runExtraction. case_bool_decide as Hlen; [apply Hrefl|].
    simpl.
    pose proof (extractionLoop_sameIdentity env (App.fields st) (App.documents st)
                  0 (App.documents st) (App.documents st) (Hrefl _)) as Hloop.
    by destruct (App.extractionLoop env (App.fields st) 0 (App.documents st)
                   (App.documents st)) as [docs log]. }
  split; [done|]. split; [symmetry; by eapply Forall2_length|].
  subst st'. unfold App.runExtraction. case_bool_decide as Hlen.
  - repeat split; try done. intros Hne. by apply nil_length_inv in Hlen.
  - simpl.
    by destruct (App.extractionLoop env (App.fields st) 0 (App.documents st)
                   (App.documents st)) as [docs log].
Qed.

Lemma runExtraction_keeps_documents_witness :
  App.isProcessing
    (App.runExtraction (λ _, hostileWorld)
       (sampleState [sampleDoc "d1" idle; sampleDoc "d1" idle])).1 = false.
Proof.
  apply (runExtraction_keeps_documents (λ _, hostileWorld)
           (sampleState [sampleDoc "d1" idle; sampleDoc "d1" idle])).
  discriminate.
Defined.

Lemma terminalDocument_status (env : nat → World) (fields : list FieldDefinition.t)
    (i : nat) (d : DocumentResult.t) :
  terminal (DocumentResult.status (terminalDocument env fields i d)).
Proof.
  unfold terminalDocument, terminal.
  destruct (decide (DocumentResult.status d = success)); [by left|].
  destruct (GeminiService.processDocument (env i) d fields).1; simpl; auto.
Qed.

(** X8. When the identifiers are distinct, a run leaves every document
    [success] or [error]: none stays [idle] or [processing], not even one
    that was [processing] when the run started. *)
Theorem runExtraction_ends_terminal (env : nat → World) (st : App.State) :
  NoDup (DocumentResult.id <$> App.documents st) →
  Forall (λ d, DocumentResult.status d = success ∨ DocumentResult.status d = error)
    (App.documents (App.runExtraction env st).1).
Proof.
  intros Hnd. rewrite runExtraction_docs by done.
  apply Forall_lookup. intros i d Hd.
  rewrite list_lookup_imap in Hd.
  destruct (App.documents st !! i) as [d0|]; simplify_eq/=.
  apply terminalDocument_status.
Qed.

Lemma runExtraction_ends_terminal_witness :
  Forall (λ d, DocumentResult.status d = success ∨ DocumentResult.status d = error)
    (App.documents
       (App.runExtraction (λ _, hostileWorld)
          (sampleState [sampleDoc "d1" processing; sampleDoc "d2" idle])).1).
Proof.
  apply (runExtraction_ends_terminal (λ _, hostileWorld)
           (sampleState [sampleDoc "d1" processing; sampleDoc "d2" idle])).
  apply (bool_decide_unpack _). vm_compute. exact I.
Defined.

(** X9. If, with distinct identifiers, every extraction of a run succeeds,
    all documents are [success] afterwards, and a further run, in whatever
    outside, logs nothing and leaves the documents as they are. *)
Theorem runExtraction_second_run_idle (env env' : nat → World) (st : App.State) :
  NoDup (DocumentResult.id <$> App.documents st) →
  (∀ i d, App.documents st !! i = Some d → DocumentResult.status d ≠ success →
     ∃ result,
       (GeminiService.processDocument (env i) d (App.fields st)).1 = Ok result) →
  let st1 := (App.runExtraction env st).1 in
  Forall (λ d, DocumentResult.status d = success) (App.documents st1)
  ∧ (App.runExtraction env' st1).2 = []
  ∧ App.documents (App.runExtraction env' st1).1 = App.documents st1.
Proof.
  intros Hnd Hok st1.
  assert (Hall : Forall (λ d, DocumentResult.status d = success) (App.documents st1)).
  { subst st1. rewrite runExtraction_docs by done.
    apply Forall_lookup. intros i d Hd. rewrite list_lookup_imap in Hd.
    destruct (App.documents st !! i) as [d0|] eqn:Hd0; simplify_eq/=.
    unfold terminalDocument.
    destruct (decide (DocumentResult.status d0 = success)); [done|].
    by destruct (Hok i d0 Hd0) as [result ->]. }
  split; [done|].
  clearbody st1. unfold App.runExtraction. case_bool_decide; [done|].
  simpl. by rewrite extractionLoop_all_success.
Qed.

Lemma runExtraction_second_run_idle_witness :
  (App.runExtraction (λ _, hostileWorld)
     (App.runExtraction (λ _, friendlyWorld)
        (sampleState [sampleDoc "d1" idle; sampleDoc "d2" error])).1).2 = [].
Proof.
  apply (runExtraction_second_run_idle (λ _, friendlyWorld) (λ _, hostileWorld)
           (sampleState [sampleDoc "d1" idle; sampleDoc "d2" error])).
  - apply (bool_decide_unpack _). vm_compute. exact I.
  - intros i d _ _. exists ∅. reflexivity.
Defined.

(** X10. A success does not clear the error message: a document that
    carries a message from an earlier failure and is then extracted with
    success ends [success] with the new data and the old message. *)
Theorem success_keeps_error_message (env : nat → World) (st : App.State)
    (j : nat) (d : DocumentResult.t) (result : gmap string ExtractedValue.t) :
  NoDup (DocumentResult.id <$> App.documents st) →
  App.documents st !! j = Some d →
  DocumentResult.status d ≠ success →
  (GeminiService.processDocument (env j) d (App.fields st)).1 = Ok result →
  ∃ d', App.documents (App.runExtraction env st).1 !! j = Some d'
        ∧ DocumentResult.status d' = success
        ∧ DocumentResult.data d' = result
        ∧ DocumentResult.errorMsg d' = DocumentResult.errorMsg d.
Proof.
  intros Hnd Hj Hs Hok. rewrite runExtraction_docs by done.
  rewrite list_lookup_imap, Hj. simpl. eexists. split; [done|].
  unfold terminalDocument. by rewrite decide_False, Hok.
Qed.

Lemma success_keeps_error_message_witness :
  ∃ d', App.documents
          (App.runExtraction (λ _, friendlyWorld)
             (sampleState [App.markError (sampleDoc "d1" idle)])).1 !! 0 = Some d'
        ∧ DocumentResult.status d' = success
        ∧ DocumentResult.data d' = ∅
        ∧ DocumentResult.errorMsg d' = Some "Extraction failed".
Proof.
  apply (success_keeps_error_message (λ _, friendlyWorld)
           (sampleState [App.markError (sampleDoc "d1" idle)])
           0 (App.markError (sampleDoc "d1" idle)) ∅).
  - apply (bool_decide_unpack _). vm_compute. exact I.
  - reflexivity.
  - discriminate.
  - reflexivity.
Defined.

(** *** Reconciliation *)

(** X11. [runReconciliation] never changes the documents, the fields, the
    reference rows or the instructions. When one of its two checks fails it
    changes nothing at all, so a busy flag that was set stays set; when both
    pass it ends with the busy flag cleared, whatever the remote call does.
    When both checks pass and the remote call resolves, the stored result
    is built from the response: the report is its text, or the fixed
    fallback when the text is missing or empty; the code is the code of its
    executable parts, in order, joined by the block separator, and empty
    when there are none. *)
Theorem runReconciliation_stores_response (w : World) (st : App.State) :
  let out := App.runReconciliation w st in
  let successDocs :=
    filter (λ d, DocumentResult.status d = success) (App.documents st) in
  App.documents out.1 = App.documents st
  ∧ App.fields out.1 = App.fields st
  ∧ App.referenceData out.1 = App.referenceData st
  ∧ App.reconcilePrompt out.1 = App.reconcilePrompt st
  ∧ (length successDocs = 0 ∨ length (App.referenceData st) = 0 → out.1 = st)
  ∧ (0 < length successDocs → 0 < length (App.referenceData st) →
     App.isReconciling out.1 = false)
  ∧ (∀ response,
       0 < length successDocs →
       0 < length (App.referenceData st) →
       GeminiService.hasKey w = true →
       generateContent w
         (Reconcile (mkReconcileRequest
                       (GeminiService.projectDocuments (App.documents st) (App.fields st))
                       (App.referenceData st) (App.reconcilePrompt st)))
         = Some response →
       ∃ result,
         App.reconcileResult out.1 = Some result
         ∧ ReconcileResult.code result
           = Js.join GeminiService.blockSeparator
               (omap executableCode (default [] (parts response)))
         ∧ (∀ t, text response = Some t → t ≠ "" → ReconcileResult.report result = t)
         ∧ (text response = None ∨ text response = Some "" →
            ReconcileResult.report result
              = "Analysis completed, but no text explanation was returned.")
         ∧ (omap executableCode (default [] (parts response)) = [] →
            ReconcileResult.code result = "")).
Proof.
  intros out successDocs. subst out successDocs. unfold App.runReconciliation.
  case_bool_decide as Hs; [by repeat split; try done; intros; lia|].
  case_bool_decide as Hr; [by repeat split; try done; intros; lia|].
  rewrite reconcileData_outcome.
  destruct (GeminiService.hasKey w);
    [|by repeat split; try done; intros [?|?]; lia].
  destruct (generateContent w _) as [response|] eqn:Hgen;
    [|by repeat split; try done; intros [?|?]; lia].
  simpl. repeat split; try done; [intros [?|?]; lia|].
  intros response' _ _ _ [= <-].
  eexists. split; [done|]. simpl. split; [done|]. split; [|split].
  - intros t -> Ht. apply truthy_iff in Ht. by rewrite Ht.
  - by intros [->| ->].
  - by intros ->.
Qed.

Lemma runReconciliation_stores_response_witness :
  App.isReconciling (App.runReconciliation friendlyWorld readyState).1 = false
  ∧ (App.runReconciliation friendlyWorld
       (App.setIsReconciling true (sampleState []))).1
    = App.setIsReconciling true (sampleState []).
Proof.
  split.
  - destruct (runReconciliation_stores_response friendlyWorld readyState)
      as (_ & _ & _ & _ & _ & Hdone & _).
    apply Hdone; vm_compute; lia.
  - destruct (runReconciliation_stores_response friendlyWorld
                (App.setIsReconciling true (sampleState [])))
      as (_ & _ & _ & _ & Hrefused & _).
    apply Hrefused. left. reflexivity.
Defined.

Lemma noAlert_reconcileData (w : World) (documents : list DocumentResult.t)
    (fields : list FieldDefinition.t) (referenceData : list (gmap string Js.Value))
    (userInstructions : string) :
  noAlert (GeminiService.reconcileData w documents fields referenceData
             userInstructions).2
  ∧ noAlert ((GeminiService.reconcileData w documents fields referenceData
                userInstructions).2 ++ [ConsoleError "error"]).
Proof.
  rewrite reconcileData_outcome.
  destruct (GeminiService.hasKey w); [destruct (generateContent w _)|];
    simpl; split; intros msg Hin;
    repeat (apply elem_of_cons in Hin as [Hin|Hin]; [discriminate Hin|]);
    by apply elem_of_nil in Hin.
Qed.

(** X12. The "Run Reconciliation" button guards the handler exactly: when
    it is enabled the handler shows no alert and ends with a result; when
    it is disabled though nothing is running, the handler would only show
    an alert. *)
Theorem reconciliation_button_matches_checks (w : World) (st : App.State) :
  (Buttons.reconciliationDisabled st = false →
     noAlert (App.runReconciliation w st).2
     ∧ is_Some (App.reconcileResult (App.runReconciliation w st).1))
  ∧ (Buttons.reconciliationDisabled st = true → App.isReconciling st = false →
     ∃ msg, App.runReconciliation w st = (st, [Alert msg])).
Proof.
  unfold Buttons.reconciliationDisabled, Buttons.processedCount,
    App.runReconciliation.
  split.
  - intros Hen. apply orb_false_elim in Hen as [Hen Hr].
    apply orb_false_elim in Hen as [_ Hs]. rewrite Hs, Hr.
    pose proof (noAlert_reconcileData w (App.documents st) (App.fields st)
                  (App.referenceData st) (App.reconcilePrompt st)) as [Hlog Hlog'].
    destruct (GeminiService.reconcileData w (App.documents st) (App.fields st)
                (App.referenceData st) (App.reconcilePrompt st)) as [[result|e] log];
      simpl in *; (split; [done|eauto]).
  - intros Hdis Hbusy. rewrite Hbusy in Hdis. simpl in Hdis.
    repeat case_bool_decide; eauto. done.
Qed.

Lemma reconciliation_button_matches_checks_witness :
  noAlert (App.runReconciliation hostileWorld readyState).2
  ∧ is_Some (App.reconcileResult (App.runReconciliation hostileWorld readyState).1).
Proof.
  apply (reconciliation_button_matches_checks hostileWorld readyState).
  reflexivity.
Defined.



(** *** The sheet of the export *)

Lemma valueCell_not_null (extracted : option ExtractedValue.t) :
  Obj.kindOfValue (Utils.valueCell extracted) ≠ Obj.Null.
Proof.
  unfold Utils.valueCell, Js.or.
  destruct (from_option ExtractedValue.value Js.VNull extracted) as [|s|n];
    simpl; [done| |]; by case_match.
Qed.

Lemma fillFields_dom (other : Z → string) (doc : DocumentResult.t)
    (fields : list FieldDefinition.t) :
  ∀ row, Obj.inheritsProto row = true →
    Obj.inheritsProto (foldl (Utils.fillField other doc) row fields) = true
    ∧ dom (Obj.own (foldl (Utils.fillField other doc) row fields))
      = dom (Obj.own row)
          ∪ (list_to_set (FieldDefinition.name <$> fields) ∖ {["__proto__"]})
          ∪ list_to_set (Utils.coordsHeader <$> fields).
Proof.
  induction fields as [|f fields IH]; intros row Hrow.
  - split; [done|]. simpl. apply set_eq. intros x.
    rewrite !elem_of_union, elem_of_difference, elem_of_empty. tauto.
  - rewrite !fmap_cons. cbn [foldl list_to_set foldr].
    assert (Hstep : Obj.inheritsProto (Utils.fillField other doc row f) = true
              ∧ dom (Obj.own (Utils.fillField other doc row f))
                = dom (Obj.own row)
                    ∪ ({[FieldDefinition.name f]} ∖ {["__proto__"]})
                    ∪ {[Utils.coordsHeader f]}).
    { unfold Utils.fillField.
      rewrite (assign_plain _ (Utils.coordsHeader f)) by apply coordsHeader_not_proto.
      cbn [Obj.own Obj.inheritsProto]. rewrite dom_insert_L.
      destruct (decide (FieldDefinition.name f = "__proto__")) as [Hn|Hn].
      - rewrite Hn, assign_proto_kept by (done || apply valueCell_not_null).
        split; [done|]. apply set_eq. intros x.
        rewrite !elem_of_union, elem_of_difference, !elem_of_singleton. tauto.
      - rewrite assign_plain by done. cbn [Obj.own Obj.inheritsProto].
        split; [done|]. rewrite dom_insert_L. apply set_eq. intros x.
        rewrite !elem_of_union, elem_of_difference, !elem_of_singleton.
        split; [|tauto]. intros [?|[->|?]]; tauto. }
    destruct Hstep as [Hi Hd]. destruct (IH _ Hi) as [Hi' Hd'].
    split; [done|]. rewrite Hd', Hd. apply set_eq. intros x.
    rewrite !elem_of_union, !elem_of_difference, !elem_of_union,
      !elem_of_singleton. tauto.
Qed.

(** X14. A row of the sheet has a cell under every header other than
    [__proto__] and under nothing else: a field named [__proto__] gets no
    value cell, though it gets its coordinate cell. The headers are the file
    name, the status, then the names of all fields, then the coordinate
    headers of all fields: the coordinate column of the [i]-th field is not
    next to its value column but [n] columns further, [n] being the number
    of fields. *)
Theorem dataRow_cells_are_headers (other : Z → string)
    (fields : list FieldDefinition.t) (doc : DocumentResult.t) :
  dom (Utils.dataRow other fields doc)
    = list_to_set (Utils.headers fields) ∖ {["__proto__"]}
  ∧ Utils.dataRow other fields doc !! "__proto__" = None
  ∧ length (Utils.headers fields) = 2 + 2 * length fields
  ∧ (∀ i f, fields !! i = Some f →
       Utils.headers fields !! (2 + i) = Some (FieldDefinition.name f)
       ∧ Utils.headers fields !! (2 + length fields + i)
         = Some (FieldDefinition.name f +:+ " (Coords)")).
Proof.
  assert (Hdom : dom (Utils.dataRow other fields doc)
                 = list_to_set (Utils.headers fields) ∖ {["__proto__"]}).
  { unfold Utils.dataRow.
    destruct (fillFields_dom other doc fields
                (Obj.assign Obj.kindOfValue "Status"
                   (Js.VString (Utils.statusText (DocumentResult.status doc)))
                   (Obj.assign Obj.kindOfValue "File Name"
                      (Js.VString (DocumentResult.fileName doc)) (Obj.literal ∅))))
      as [_ Hd]; [done|].
    rewrite Hd. rewrite !assign_plain by done. cbn [Obj.own Obj.literal].
    rewrite !dom_insert_L, dom_empty_L.
    assert (Hc : ∀ x, x ∈ Utils.coordsHeader <$> fields → x ≠ "__proto__").
    { intros x (f & -> & _)%list_elem_of_fmap. apply coordsHeader_not_proto. }
    unfold Utils.headers. apply set_eq. intros x. specialize (Hc x).
    repeat (rewrite elem_of_union || rewrite elem_of_difference
            || rewrite elem_of_singleton
            || rewrite elem_of_list_to_set || rewrite elem_of_app
            || rewrite elem_of_cons || rewrite elem_of_nil
            || rewrite elem_of_empty).
    split.
    - intros [[[Hx|[Hx|[]]]|[Hx Hp]]|Hx]; subst; (split; [tauto|done || tauto]).
    - tauto. }
  split; [done|]. split; [|split].
  - apply not_elem_of_dom. rewrite Hdom, elem_of_difference, elem_of_singleton.
    tauto.
  - unfold Utils.headers. rewrite !length_app, !length_fmap. simpl. lia.
  - intros i f Hf. unfold Utils.headers. simpl. split.
    + rewrite lookup_app_l by (rewrite length_fmap; by eapply lookup_lt_Some).
      by rewrite list_lookup_fmap, Hf.
    + rewrite lookup_app_r by (rewrite length_fmap; lia).
      rewrite length_fmap.
      replace (length fields + i - length fields) with i by lia.
      by rewrite list_lookup_fmap, Hf.
Qed.

Lemma dataRow_cells_are_headers_witness :
  Utils.headers App.initialFields !! (2 + 0) = Some "Invoice Number"
  ∧ Utils.headers App.initialFields !! (2 + length App.initialFields + 0)
    = Some ("Invoice Number" +:+ " (Coords)").
Proof.
  destruct (dataRow_cells_are_headers noBigNumbers App.initialFields
              (sampleDoc "d1" idle))
    as (_ & _ & _ & Hcol).
  apply (Hcol 0 (FieldDefinition.mk "1" "Invoice Number" "invoice_number"
                   (COLORS !!! 0))).
  reflexivity.
Defined.

(** X15. With pairwise distinct headers, the row of a document shows its
    file name and its status as text, and in the value column of a field
    not named [__proto__] the extracted value itself whenever that value is
    truthy. *)
Theorem dataRow_columns (other : Z → string) (fields : list FieldDefinition.t)
    (doc : DocumentResult.t) :
  NoDup (Utils.headers fields) →
  Utils.dataRow other fields doc !! "File Name"
    = Some (Js.VString (DocumentResult.fileName doc))
  ∧ Utils.dataRow other fields doc !! "Status"
    = Some (Js.VString (Utils.statusText (DocumentResult.status doc)))
  ∧ (∀ f ev, f ∈ fields →
       FieldDefinition.name f ≠ "__proto__" →
       DocumentResult.data doc !! FieldDefinition.key f = Some ev →
       Js.truthyValue (ExtractedValue.value ev) = true →
       Utils.dataRow other fields doc !! FieldDefinition.name f
         = Some (ExtractedValue.value ev)).
Proof.
  intros Hnd.
  pose proof (headers_columns_NoDup fields Hnd) as Hcols.
  unfold Utils.headers in Hnd. simpl in Hnd.
  apply NoDup_cons in Hnd as [Hfile Hnd]. apply NoDup_cons in Hnd as [Hstatus _].
  rewrite not_elem_of_cons, elem_of_app in Hfile.
  rewrite elem_of_app in Hstatus.
  split; [|split].
  - unfold Utils.dataRow. rewrite fillFields_other by tauto.
    rewrite !assign_plain by done. cbn [Obj.own Obj.literal].
    rewrite lookup_insert_ne by done. apply lookup_insert_eq.
  - unfold Utils.dataRow. rewrite fillFields_other by tauto.
    rewrite !assign_plain by done. cbn [Obj.own Obj.literal].
    apply lookup_insert_eq.
  - intros f ev Hf Hproto Hev Htruthy.
    destruct (fillFields_columns other doc fields f Hcols Hf
                (Obj.assign Obj.kindOfValue "Status"
                   (Js.VString (Utils.statusText (DocumentResult.status doc)))
                   (Obj.assign Obj.kindOfValue "File Name"
                      (Js.VString (DocumentResult.fileName doc)) (Obj.literal ∅))))
      as [Hvalue _].
    unfold Utils.dataRow. rewrite (Hvalue Hproto), Hev.
    unfold Utils.valueCell, Js.or. simpl. by rewrite Htruthy.
Qed.

Lemma dataRow_columns_witness :
  Utils.dataRow noBigNumbers App.initialFields (sampleDoc "d1" error) !! "Status"
    = Some (Js.VString (Utils.statusText (DocumentResult.status (sampleDoc "d1" error)))).
Proof.
  apply (dataRow_columns noBigNumbers App.initialFields (sampleDoc "d1" error)).
  apply (bool_decide_unpack _). vm_compute. exact I.
Defined.

(** *** The archive and its links *)

Lemma chars_nonempty (s : string) : s ≠ "" ↔ Js.chars s ≠ [].
Proof. destruct s; simpl; split; congruence. Qed.

Lemma numbered_nonempty (base ext : string) (n : nat) :
  Utils.numbered base n ext ≠ "".
Proof.
  apply chars_nonempty. unfold Utils.numbered. rewrite !chars_app.
  change (Js.chars "_") with ["_"%char].
  intros H. apply app_eq_nil in H as [_ H]. discriminate H.
Qed.

Lemma uniqueName_nonempty (used : gset string) (name u : string) :
  name ≠ "" → Utils.uniqueName used name = Some u → u ≠ "".
Proof.
  intros Hname Hu. unfold Utils.uniqueName in Hu.
  apply uniqueLoop_Some in Hu as [_ [[_ ->]|(_ & n & _ & -> & _)]]; [done|].
  apply numbered_nonempty.
Qed.

Lemma addDocuments_entries (docs : list DocumentResult.t) :
  ∀ acc acc',
    Utils.addDocuments acc docs = Some acc' →
    (∃ new, Utils.docsFolder acc' = Utils.docsFolder acc ++ new
            ∧ snd <$> new = DocumentResult.file <$> docs)
    ∧ (∀ k, (k ∉ DocumentResult.id <$> docs) →
            Utils.filenameMap acc' !! k = Utils.filenameMap acc !! k)
    ∧ (∀ i doc, docs !! i = Some doc →
         (DocumentResult.id doc ∉ DocumentResult.id <$> drop (S i) docs) →
         ∃ u, Utils.docsFolder acc' !! (length (Utils.docsFolder acc) + i)
                = Some (u, DocumentResult.file doc)
              ∧ Utils.filenameMap acc' !! DocumentResult.id doc = Some u
              ∧ (DocumentResult.fileName doc ≠ "" → u ≠ "")).
Proof.
  induction docs as [|doc rest IH]; intros acc acc' Hadd.
  - simpl in Hadd. injection Hadd as <-. split; [|split].
    + exists []. by rewrite app_nil_r.
    + done.
    + by intros [|i] d ?.
  - simpl in Hadd. unfold Utils.addDocument in Hadd.
    destruct (Utils.uniqueName (Utils.usedFilenames acc) (DocumentResult.fileName doc))
      as [u|] eqn:Hu; [|done].
    simpl in Hadd. apply IH in Hadd as ((new & Hnew & Hfiles) & Hother & Hat).
    simpl in Hnew, Hother, Hat.
    split; [|split].
    + exists ((u, DocumentResult.file doc) :: new). split.
      * by rewrite Hnew, <- app_assoc.
      * by rewrite !fmap_cons, Hfiles.
    + intros k Hk. rewrite fmap_cons, not_elem_of_cons in Hk.
      destruct Hk as [Hne Hk]. rewrite Hother by done.
      by rewrite lookup_insert_ne.
    + intros [|i] d Hd Hlater; simplify_eq/=.
      * exists u. rewrite Nat.add_0_r. split; [|split].
        -- rewrite Hnew, <- app_assoc. by apply list_lookup_middle.
        -- rewrite Hother by done. apply lookup_insert_eq.
        -- intros Hname. by eapply uniqueName_nonempty.
      * destruct (Hat i d Hd Hlater) as (u' & Hentry & Hmap & Hne).
        exists u'. split; [|done].
        rewrite length_app in Hentry. simpl in Hentry.
        by replace (length (Utils.docsFolder acc) + S i)
          with (length (Utils.docsFolder acc) + 1 + i) by lia.
Qed.

Lemma addDocuments_total (docs : list DocumentResult.t) :
  ∀ acc, is_Some (Utils.addDocuments acc docs).
Proof.
  induction docs as [|doc rest IH]; intros acc; [by eexists|].
  simpl. unfold Utils.addDocument.
  destruct (uniqueName_total (Utils.usedFilenames acc) (DocumentResult.fileName doc))
    as (u & -> & _).
  simpl. apply IH.
Qed.

(** X16. The export always resolves the names. The folder of the archive
    then holds the files of the documents, one entry each, in document
    order. With distinct identifiers, the entry at the position of a
    document is the file of that document under the name the map gives for
    its identifier; and if its file name is not empty, the first cell of its
    row links to [source_documents/] followed by that name, so every link
    points at the entry of its own document. *)
Theorem export_entries_and_links (documents : list DocumentResult.t) :
  ∃ names,
    Utils.resolveNames documents = Some names
    ∧ snd <$> Utils.docsFolder names = DocumentResult.file <$> documents
    ∧ length (Links.hyperlinks names documents) = length documents
    ∧ (NoDup (DocumentResult.id <$> documents) →
       ∀ i doc, documents !! i = Some doc →
         ∃ u, Utils.docsFolder names !! i = Some (u, DocumentResult.file doc)
              ∧ Utils.filenameMap names !! DocumentResult.id doc = Some u
              ∧ (DocumentResult.fileName doc ≠ "" →
                 Links.hyperlinks names documents !! i
                   = Some (Some ("source_documents/" +:+ u)))).
Proof.
  destruct (addDocuments_total documents Utils.noNames) as [names Hnames].
  exists names. split; [done|].
  apply addDocuments_entries in Hnames as ((new & Hnew & Hfiles) & _ & Hat).
  simpl in Hnew, Hat. subst new. split; [done|].
  split; [unfold Links.hyperlinks; by rewrite length_fmap|].
  intros Hnd i doc Hdoc.
  destruct (Hat i doc Hdoc) as (u & Hentry & Hmap & Hne).
  { rewrite <- (take_drop_middle _ _ _ Hdoc), fmap_app, fmap_cons in Hnd.
    apply NoDup_app in Hnd as (_ & _ & Hnd). by apply NoDup_cons in Hnd as [? _]. }
  exists u. split; [done|]. split; [done|].
  intros Hname. unfold Links.hyperlinks. rewrite list_lookup_fmap, Hdoc. simpl.
  unfold Links.linkTarget. rewrite Hmap.
  specialize (Hne Hname). apply truthy_iff in Hne. by rewrite Hne.
Qed.

Lemma export_entries_and_links_witness :
  ∃ names,
    Utils.resolveNames [sampleDoc "d1" idle; sampleDoc "d2" idle] = Some names
    ∧ Links.hyperlinks names [sampleDoc "d1" idle; sampleDoc "d2" idle] !! 1
      = Some (Some "source_documents/a_1.pdf").
Proof.
  destruct (export_entries_and_links [sampleDoc "d1" idle; sampleDoc "d2" idle])
    as (names & Hnames & _ & _ & Hlinks).
  exists names. split; [done|].
  destruct (Hlinks (ltac:(apply (bool_decide_unpack _); vm_compute; exact I))
              1 (sampleDoc "d2" idle) eq_refl) as (u & Hentry & _ & Hlink).
  rewrite Hlink by discriminate.
  vm_compute in Hnames. injection Hnames as <-.
  vm_compute in Hentry. by injection Hentry as <-.
Defined.

Lemma split_at_last_unique {A} (x : A) (l1 l2 r1 r2 : list A) :
  x ∉ r1 → x ∉ r2 → l1 ++ x :: r1 = l2 ++ x :: r2 → l1 = l2 ∧ r1 = r2.
Proof.
  revert l2. induction l1 as [|a l1 IH]; intros [|b l2] H1 H2 Heq;
    simpl in Heq.
  - by injection Heq as ->.
  - injection Heq as Hhead Htail.
    exfalso. apply H1. rewrite Htail. apply elem_of_app. right. left.
  - injection Heq as Hhead Htail.
    exfalso. apply H2. rewrite <- Htail. apply elem_of_app. right. left.
  - injection Heq as Hhead Htail.
    destruct (IH l2 H1 H2 Htail) as [-> ->]. by subst.
Qed.

Lemma cutAtLastDot_unique (name b1 e1 b2 e2 : string) :
  cutAtLastDot name b1 e1 → cutAtLastDot name b2 e2 → b1 = b2 ∧ e1 = e2.
Proof.
  intros [Hn1 Hc1] [Hn2 Hc2].
  apply (f_equal Js.chars) in Hn1, Hn2. rewrite chars_app in Hn1, Hn2.
  destruct Hc1 as [[Hno1 ->]|(r1 & -> & Hr1)], Hc2 as [[Hno2 ->]|(r2 & -> & Hr2)].
  - simpl in Hn1, Hn2. rewrite app_nil_r in Hn1, Hn2.
    split; [|done]. apply chars_inj. congruence.
  - exfalso. apply Hno1. rewrite <- Hn2. apply elem_of_app. right. left.
  - exfalso. apply Hno2. rewrite <- Hn1. apply elem_of_app. right. left.
  - change (Js.chars (String "." ?r)) with ("."%char :: Js.chars r) in Hn1, Hn2.
    rewrite <- Hn2 in Hn1.
    apply split_at_last_unique in Hn1 as [Hb Hr]; [|done..].
    apply chars_inj in Hb, Hr. by subst.
Qed.

Lemma pretty_nat_coordsChars (n : nat) :
  Forall (λ c, isCoordsChar c = true) (Js.chars (pretty n)).
Proof.
  unfold pretty, pretty_nat, pretty, pretty_N. case_decide.
  - by repeat constructor.
  - apply pretty_N_go_coordsChars. constructor.
Qed.

Lemma numbered_cut (name : string) (n : nat) :
  cutAtLastDot (Utils.numbered (Utils.baseOf name) n (Utils.extOf name))
    (Utils.baseOf name +:+ "_" +:+ pretty n) (Utils.extOf name).
Proof.
  destruct (baseOf_extOf_cut name) as [Hname Hcut].
  split.
  - unfold Utils.numbered. apply chars_inj. rewrite !chars_app.
    by rewrite <- !app_assoc.
  - destruct Hcut as [[Hno Hext]|Hdot]; [|by right].
    left. split; [|done]. rewrite Hext in *.
    unfold Utils.numbered. rewrite !chars_app.
    assert (Hbase : Utils.baseOf name = name).
    { apply chars_inj. apply (f_equal Js.chars) in Hname.
      rewrite chars_app in Hname. simpl in Hname. by rewrite app_nil_r in Hname. }
    rewrite Hbase.
    change (Js.chars "_") with ["_"%char]. change (Js.chars "") with (@nil ascii).
    rewrite app_nil_r, !elem_of_app, elem_of_cons, elem_of_nil.
    intros [Hin|[[Hin|[]]|Hin]].
    + done.
    + discriminate Hin.
    + pose proof (pretty_nat_coordsChars n) as Hp.
      rewrite Forall_forall in Hp. specialize (Hp _ Hin).
      vm_compute in Hp. discriminate Hp.
Qed.

(** X17. De-duplication keeps the extension: the name a document gets in
    the archive has the extension of its file name, and either is the file
    name or has its base followed by [_<n>] as base. *)
Theorem resolved_name_keeps_extension (documents : list DocumentResult.t)
    (names : list string) (i : nat) (doc : DocumentResult.t) (r : string) :
  Utils.resolvedNames documents = Some names →
  documents !! i = Some doc →
  names !! i = Some r →
  Utils.extOf r = Utils.extOf (DocumentResult.fileName doc)
  ∧ (r = DocumentResult.fileName doc
     ∨ ∃ n, 1 ≤ n
            ∧ Utils.baseOf r
              = Utils.baseOf (DocumentResult.fileName doc) +:+ "_" +:+ pretty n).
Proof.
  intros Hnames Hdoc Hr. rewrite resolvedNames_resolveFrom in Hnames.
  destruct (resolveFrom_spec (DocumentResult.fileName <$> documents) [])
    as (rs & Hrs & _ & _ & _ & Hrule).
  simpl in Hrs. assert (rs = names) as -> by congruence.
  destruct (Hrule i (DocumentResult.fileName doc) r) as [_ Hcase]; [|done|].
  { by rewrite list_lookup_fmap, Hdoc. }
  destruct Hcase as [[_ ->]|(_ & n & Hn & -> & _)]; [split; [done|by left]|].
  destruct (cutAtLastDot_unique _ _ _ _ _
              (baseOf_extOf_cut _)
              (numbered_cut (DocumentResult.fileName doc) n)) as [Hb He].
  split; [done|]. right. by exists n.
Qed.

Lemma resolved_name_keeps_extension_witness :
  Utils.extOf "a_2.pdf" = Utils.extOf (DocumentResult.fileName (sampleDoc "d3" idle))
  ∧ ("a_2.pdf" = DocumentResult.fileName (sampleDoc "d3" idle)
     ∨ ∃ n, 1 ≤ n
            ∧ Utils.baseOf "a_2.pdf"
              = Utils.baseOf (DocumentResult.fileName (sampleDoc "d3" idle))
                +:+ "_" +:+ pretty n).
Proof.
  apply (resolved_name_keeps_extension
           [sampleDoc "d1" idle; sampleDoc "d2" idle; sampleDoc "d3" idle]
           ["a.pdf"; "a_1.pdf"; "a_2.pdf"] 2 (sampleDoc "d3" idle) "a_2.pdf");
    reflexivity.
Defined.

(** *** Reports with no table, and with several *)

Lemma splitChars_pieces (sep : ascii) (l : list ascii) :
  ∀ piece c, piece ∈ Js.splitChars sep l → c ∈ piece → c ∈ l.
Proof.
  induction l as [|x l IH]; intros piece c Hpiece Hc.
  - simpl in Hpiece. apply list_elem_of_singleton in Hpiece as ->.
    by apply elem_of_nil in Hc.
  - simpl in Hpiece. destruct (decide (x = sep)).
    + apply elem_of_cons in Hpiece as [->|Hpiece]; [by apply elem_of_nil in Hc|].
      right. by eapply IH.
    + destruct (Js.splitChars sep l) as [|h t] eqn:E.
      * apply list_elem_of_singleton in Hpiece as ->.
        apply list_elem_of_singleton in Hc as ->. left.
      * apply elem_of_cons in Hpiece as [->|Hpiece].
        -- apply elem_of_cons in Hc as [->|Hc]; [left|right].
           apply (IH h); [left|done].
        -- right. apply (IH piece); [by right|done].
Qed.

Lemma dropWhile_subset {A} (p : A → bool) (l : list A) (x : A) :
  x ∈ Js.dropWhile p l → x ∈ l.
Proof.
  induction l as [|y l IH]; simpl; [done|].
  destruct (p y); [|done]. intros Hx. right. by apply IH.
Qed.

Lemma trimChars_subset (l : list ascii) (c : ascii) :
  c ∈ Js.trimChars l → c ∈ l.
Proof.
  unfold Js.trimChars. rewrite !list_elem_of_In, <- in_rev, <- !list_elem_of_In.
  intros Hc. apply dropWhile_subset in Hc.
  rewrite list_elem_of_In, <- in_rev, <- list_elem_of_In in Hc.
  by apply dropWhile_subset in Hc.
Qed.

Lemma isTableLine_pipe (line : string) :
  Utils.isTableLine line = true → "|"%char ∈ Js.chars line.
Proof.
  unfold Utils.isTableLine, Js.startsWith. intros H.
  apply andb_true_iff in H as [H _].
  destruct (Js.chars line) as [|c l]; [done|].
  apply bool_decide_eq_true in H as ->. left.
Qed.

Lemma parseLines_nonblank_prose (prose : list string) :
  Forall (λ line, proseLine line ∧ Js.trim line ≠ "") prose →
  ∀ rest data tableStarted,
    Utils.parseLines (prose ++ rest) data tableStarted
      = Utils.parseLines rest data tableStarted.
Proof.
  induction 1 as [|line prose [Hline Hne] _ IH]; intros rest data tableStarted;
    [done|].
  simpl. unfold proseLine in Hline. rewrite Hline.
  rewrite (bool_decide_eq_false_2 _ Hne), andb_false_r. apply IH.
Qed.

(** X18. The parser never returns an empty table: it returns [null]
    instead. It returns [null] in particular for every report without a
    pipe character, the empty report included. *)
Theorem parseMarkdownTable_null_without_rows (markdown : string) :
  (∀ rows, Utils.parseMarkdownTable markdown = Some rows → rows ≠ [])
  ∧ (("|"%char ∉ Js.chars markdown) → Utils.parseMarkdownTable markdown = None).
Proof.
  split.
  - intros rows. unfold Utils.parseMarkdownTable.
    case_bool_decide as Hlen; [|done]. intros [= <-] Hnil.
    rewrite Hnil in Hlen. simpl in Hlen. lia.
  - intros Hpipe. unfold Utils.parseMarkdownTable.
    rewrite parseLines_no_table; [done|].
    apply Forall_forall. intros line Hline. unfold proseLine.
    destruct (Utils.isTableLine (Js.trim line)) eqn:E; [|done].
    exfalso. apply Hpipe.
    apply isTableLine_pipe in E. unfold Js.trim in E. rewrite chars_str in E.
    apply trimChars_subset in E.
    unfold Js.split in Hline. apply list_elem_of_fmap in Hline as (piece & -> & Hpiece).
    rewrite chars_str in E. by eapply splitChars_pieces.
Qed.

Lemma parseMarkdownTable_null_without_rows_witness :
  Utils.parseMarkdownTable "All invoices matched." = None.
Proof.
  apply (parseMarkdownTable_null_without_rows "All invoices matched.").
  apply (bool_decide_unpack _). vm_compute. exact I.
Defined.

(** X19. Only a blank line ends the table. Two blocks of table lines with
    nothing but non-blank prose between them are returned as one table:
    the rows of the first followed by the rows of the second. *)
Theorem tables_without_blank_line_merge
    (markdown : string) (tbl1 prose tbl2 : list string) :
  Js.split "010" markdown = tbl1 ++ prose ++ tbl2 →
  Forall tableLine tbl1 →
  Forall (λ line, proseLine line ∧ Js.trim line ≠ "") prose →
  Forall tableLine tbl2 →
  tableRows tbl1 ≠ [] →
  Utils.parseMarkdownTable markdown = Some (tableRows tbl1 ++ tableRows tbl2).
Proof.
  intros Hsplit H1 Hprose H2 Hrows. unfold Utils.parseMarkdownTable.
  rewrite Hsplit, parseLines_table, parseLines_nonblank_prose by done.
  rewrite <- (app_nil_r tbl2), parseLines_table by done. simpl.
  rewrite app_nil_r.
  destruct (tableRows tbl1) as [|row rows]; [done|].
  by rewrite bool_decide_eq_true_2 by (simpl; lia).
Qed.

Lemma tables_without_blank_line_merge_witness :
  Utils.parseMarkdownTable
    ("| a | b |" +:+ GeminiService.nl +:+ "and also" +:+ GeminiService.nl +:+ "| c | d |")
  = Some [["a"; "b"]; ["c"; "d"]].
Proof.
  apply (tables_without_blank_line_merge
           ("| a | b |" +:+ GeminiService.nl +:+ "and also" +:+ GeminiService.nl
              +:+ "| c | d |")
           ["| a | b |"] ["and also"] ["| c | d |"]).
  - reflexivity.
  - repeat constructor.
  - repeat constructor; discriminate.
  - repeat constructor.
  - discriminate.
Defined.

(** *** Reading the coordinates back *)

Lemma pretty_N_go_numeral (x : N) :
  ∀ s, ∃ pre, Js.chars (pretty_N_go x s) = pre ++ Js.chars s
              ∧ Forall (λ c, isNumeralChar c = true) pre
              ∧ ((0 < x)%N → pre ≠ []).
Proof.
  induction (N.lt_wf_0 x) as [x _ IH]; intros s.
  destruct (decide (x = 0)%N) as [->|Hx].
  - exists []. rewrite pretty_N_go_0. split; [done|]. split; [constructor|lia].
  - rewrite pretty_N_go_step by lia.
    destruct (IH (x `div` 10)%N (N.div_lt x 10 ltac:(lia) ltac:(lia))
                (String (pretty_N_char (x `mod` 10)) s))
      as (pre & Hpre & Hdigits & _).
    exists (pre ++ [pretty_N_char (x `mod` 10)]).
    split; [by rewrite Hpre, <- app_assoc|]. split.
    + apply Forall_app. split; [done|]. constructor; [|constructor].
      unfold pretty_N_char. by repeat case_match.
    + intros _ Hnil. by apply app_eq_nil in Hnil as [_ ?].
Qed.

Lemma pretty_Z_numeral (z : Z) :
  Forall (λ c, isNumeralChar c = true) (Js.chars (pretty z))
  ∧ Js.chars (pretty z) ≠ [].
Proof.
  assert (HN : ∀ p : positive,
            Forall (λ c, isNumeralChar c = true) (Js.chars (pretty (Npos p)))
            ∧ Js.chars (pretty (Npos p)) ≠ []).
  { intros p. unfold pretty, pretty_N. rewrite decide_False by done.
    destruct (pretty_N_go_numeral (Npos p) "") as (pre & -> & Hd & Hne).
    change (Js.chars "") with (@nil ascii). rewrite app_nil_r.
    split; [done|]. apply Hne. lia. }
  destruct z as [|p|p]; unfold pretty, pretty_Z.
  - split; [by repeat constructor|done].
  - apply HN.
  - rewrite chars_app. destruct (HN p) as [Hd _]. split.
    + apply Forall_app. split; [by repeat constructor|done].
    + done.
Qed.

Lemma splitChars_join (sep : ascii) (xs : list string) :
  xs ≠ [] →
  Forall (λ x, sep ∉ Js.chars x) xs →
  Js.splitChars sep (Js.chars (Js.join (String sep "") xs)) = Js.chars <$> xs.
Proof.
  intros Hne Hxs. induction Hxs as [|x xs Hx Hxs IH]; [done|].
  destruct xs as [|y xs].
  - simpl. by apply splitChars_nosep.
  - rewrite chars_join_cons. change (Js.chars (String sep "")) with [sep].
    cbn [app]. rewrite splitChars_app_sep by done. by rewrite IH.
Qed.

Lemma fmap_injective {A B} (f : A → B) (l1 l2 : list A) :
  (∀ x y, f x = f y → x = y) → f <$> l1 = f <$> l2 → l1 = l2.
Proof.
  intros Hf. revert l2. induction l1 as [|x l1 IH]; intros [|y l2] H;
    simplify_eq/=; [done|]. f_equal; auto.
Qed.

Lemma numerals_split (a : list Z) :
  a ≠ [] →
  Js.splitChars "," (Js.chars (Js.join "," (pretty <$> a)))
    = Js.chars <$> (pretty <$> a).
Proof.
  intros Ha. apply splitChars_join; [by destruct a|].
  apply Forall_fmap, Forall_true. intros z Hin.
  destruct (pretty_Z_numeral z) as [Hd _]. rewrite Forall_forall in Hd.
  specialize (Hd _ Hin). vm_compute in Hd. discriminate Hd.
Qed.

Lemma stringifyArray_inj (other : Z → string) (a b : list Z) :
  Forall (λ n, Js.safeInteger n = true) a →
  Forall (λ n, Js.safeInteger n = true) b →
  Js.stringifyArray other a = Js.stringifyArray other b → a = b.
Proof.
  unfold Js.stringifyArray. intros Ha Hb H.
  rewrite !numberToString_safe in H by done.
  apply (inj (String.app "[")) in H.
  apply (f_equal Js.chars) in H. rewrite !chars_app in H.
  apply app_inv_tail in H.
  apply (f_equal (Js.splitChars ",")) in H.
  clear Ha Hb. destruct a as [|x a], b as [|y b]; [done| | |].
  - rewrite (numerals_split (y :: b)) in H by done. simpl in H.
    injection H as H _. symmetry in H. by apply pretty_Z_numeral in H.
  - rewrite (numerals_split (x :: a)) in H by done. simpl in H.
    injection H as H _. by apply pretty_Z_numeral in H.
  - rewrite !numerals_split in H by done.
    apply (fmap_injective Js.chars) in H; [|apply chars_inj].
    apply (fmap_injective pretty) in H; [done|]. intros ??. apply (inj pretty).
Qed.

(** X20. The coordinate text can be read back when the boxes hold integers
    below 2^53 in magnitude: two entries with such boxes, or with none, give
    the same coordinate cell only if they have the same box, or both none.
    Whatever the numbers, the cell is empty exactly when there is no box. *)
Theorem coordsCell_determines_box (other : Z → string)
    (e1 e2 : option ExtractedValue.t) :
  ((∀ box, e1 ≫= ExtractedValue.box_2d = Some box →
           Forall (λ n, Js.safeInteger n = true) box) →
   (∀ box, e2 ≫= ExtractedValue.box_2d = Some box →
           Forall (λ n, Js.safeInteger n = true) box) →
   Utils.coordsCell other e1 = Utils.coordsCell other e2 →
   e1 ≫= ExtractedValue.box_2d = e2 ≫= ExtractedValue.box_2d)
  ∧ (Utils.coordsCell other e1 = "" ↔ e1 ≫= ExtractedValue.box_2d = None).
Proof.
  assert (Hne : ∀ box, Js.stringifyArray other box ≠ "").
  { intros box. unfold Js.stringifyArray. apply chars_nonempty.
    rewrite chars_app. done. }
  unfold Utils.coordsCell. split.
  - destruct (e1 ≫= ExtractedValue.box_2d) as [b1|],
      (e2 ≫= ExtractedValue.box_2d) as [b2|]; intros H1 H2 H.
    + f_equal. apply (stringifyArray_inj other); auto.
    + by apply Hne in H.
    + symmetry in H. by apply Hne in H.
    + done.
  - destruct (e1 ≫= ExtractedValue.box_2d) as [b1|]; split; try done.
Qed.

Lemma coordsCell_determines_box_witness :
  Some (ExtractedValue.mk Js.VNull (Some [1; 23]%Z)) ≫= ExtractedValue.box_2d
  = Some (ExtractedValue.mk (Js.VString "x") (Some [1; 23]%Z)) ≫= ExtractedValue.box_2d.
Proof.
  apply (coordsCell_determines_box noBigNumbers
           (Some (ExtractedValue.mk Js.VNull (Some [1; 23]%Z)))
           (Some (ExtractedValue.mk (Js.VString "x") (Some [1; 23]%Z)))).
  - intros box [= <-]. repeat constructor.
  - intros box [= <-]. repeat constructor.
  - reflexivity.
Defined.

(** *** Upload *)

Lemma newDocs_lookup (w : World) (renderFirstPage : File → option string)
    (uuid : nat → string) (files : list File) :
  ∀ i,
    length (Upload.newDocs w renderFirstPage uuid i files).1 = length files
    ∧ ∀ k file, files !! k = Some file →
        (Upload.newDocs w renderFirstPage uuid i files).1 !! k
          = Some (Upload.uploadedDocument w renderFirstPage (uuid (i + k)) file).1.
Proof.
  induction files as [|file0 rest IH]; intros i; [done|].
  simpl. destruct (IH (S i)) as [Hlen Hat].
  destruct (Upload.uploadedDocument w renderFirstPage (uuid i) file0) as [doc log] eqn:E.
  destruct (Upload.newDocs w renderFirstPage uuid (S i) rest) as [docs log'].
  simpl in *. split; [by rewrite Hlen|].
  intros [|k] file Hfile; simplify_eq/=.
  - by rewrite Nat.add_0_r, E.
  - rewrite (Hat k file Hfile). by replace (i + S k) with (S i + k) by lia.
Qed.

(** X21. An upload never drops a file and never touches the documents
    already there: it appends one document per file, in order, each with
    the identifier drawn for it, the file, its name and type, and no data.
    The document is [idle] with a preview when the preview could be made,
    and else [error] with the fixed message and no preview; a file that is
    neither an image nor a PDF always ends that way. *)
Theorem handleFileUpload_adds_every_file (w : World)
    (renderFirstPage : File → option string) (uuid : nat → string)
    (files : list File) (st : App.State) :
  let st' := (Upload.handleFileUpload w renderFirstPage uuid (Some files) st).1 in
  take (length (App.documents st)) (App.documents st') = App.documents st
  ∧ length (App.documents st') = length (App.documents st) + length files
  ∧ App.fields st' = App.fields st
  ∧ ∀ k file, files !! k = Some file →
      ∃ d, App.documents st' !! (length (App.documents st) + k) = Some d
           ∧ DocumentResult.id d = uuid k
           ∧ DocumentResult.file d = file
           ∧ DocumentResult.fileName d = file_name file
           ∧ DocumentResult.fileType d = file_type file
           ∧ DocumentResult.data d = ∅
           ∧ ((∃ url, Preview.renderPdfToImage w renderFirstPage file = inr url
                      ∧ DocumentResult.status d = idle
                      ∧ DocumentResult.previewUrl d = Some url
                      ∧ DocumentResult.errorMsg d = None)
              ∨ (∃ e, Preview.renderPdfToImage w renderFirstPage file = inl e
                      ∧ DocumentResult.status d = error
                      ∧ DocumentResult.previewUrl d = None
                      ∧ DocumentResult.errorMsg d = Some "Could not generate preview"))
           ∧ (Preview.startsWith "image/" (file_type file) = false →
              file_type file ≠ "application/pdf" →
              DocumentResult.status d = error).
Proof.
  intros st'. subst st'. unfold Upload.handleFileUpload.
  destruct (newDocs_lookup w renderFirstPage uuid files 0) as [Hlen Hat].
  destruct (Upload.newDocs w renderFirstPage uuid 0 files) as [docs log].
  simpl in *. split; [by rewrite take_app_length|].
  split; [by rewrite length_app, Hlen|]. split; [done|].
  intros k file Hfile. specialize (Hat k file Hfile).
  rewrite lookup_app_r by lia.
  replace (length (App.documents st) + k - length (App.documents st)) with k by lia.
  rewrite Hat. eexists. split; [done|].
  unfold Upload.uploadedDocument, Preview.renderPdfToImage.
  destruct (Preview.startsWith "image/" (file_type file)).
  - destruct (readAsDataURL w file) as [url|]; simpl;
      (repeat split; try done); [left|right]; eauto.
  - case_bool_decide.
    + destruct (renderFirstPage file) as [url|]; simpl;
        (repeat split; try done); [left|right]; eauto.
    + simpl. repeat split; try done. right. eauto.
Qed.

Lemma handleFileUpload_adds_every_file_witness :
  ∃ d, App.documents
         (Upload.handleFileUpload friendlyWorld (λ _, None) (λ _, "u")
            (Some [mkFile "notes.txt" "text/plain" "hello"]) App.initialState).1
         !! (length (App.documents App.initialState) + 0) = Some d
       ∧ DocumentResult.status d = error.
Proof.
  destruct (handleFileUpload_adds_every_file friendlyWorld (λ _, None) (λ _, "u")
              [mkFile "notes.txt" "text/plain" "hello"] App.initialState)
    as (_ & _ & _ & Hat).
  destruct (Hat 0 (mkFile "notes.txt" "text/plain" "hello") eq_refl)
    as (d & Hd & _ & _ & _ & _ & _ & _ & Hunsupported).
  exists d. split; [done|]. apply Hunsupported; [reflexivity|discriminate].
Defined.

(** X22. A failed preview does not keep a document from being extracted:
    no uploaded document is [success], so the next run of the extraction,
    started on a state that held no document before the upload, calls
    [processDocument] for every uploaded file, in order. *)
Theorem uploaded_documents_are_all_extracted (w : World)
    (renderFirstPage : File → option string) (uuid : nat → string)
    (files : list File) (env : nat → World) (st : App.State) :
  App.documents st = [] →
  let st' := (Upload.handleFileUpload w renderFirstPage uuid (Some files) st).1 in
  Forall (λ d, DocumentResult.status d ≠ success) (App.documents st')
  ∧ (App.runExtraction env st').2
    = concat (imap (λ i d, (GeminiService.processDocument (env i) d (App.fields st')).2)
                (App.documents st')).
Proof.
  intros Hempty st'.
  assert (Hall : Forall (λ d, DocumentResult.status d ≠ success) (App.documents st')).
  { subst st'. unfold Upload.handleFileUpload.
    destruct (newDocs_lookup w renderFirstPage uuid files 0) as [Hlen Hat].
    destruct (Upload.newDocs w renderFirstPage uuid 0 files) as [docs log].
    simpl in *. rewrite Hempty. simpl.
    apply Forall_lookup. intros k d Hd.
    destruct (files !! k) as [file|] eqn:Hfile.
    - rewrite (Hat k file Hfile) in Hd. injection Hd as <-.
      unfold Upload.uploadedDocument.
      by destruct (Preview.renderPdfToImage w renderFirstPage file).
    - apply lookup_ge_None in Hfile. apply lookup_lt_Some in Hd. lia. }
  split; [done|]. rewrite runExtraction_log. f_equal.
  apply imap_ext. intros i d Hd. unfold iterationLog.
  rewrite Forall_lookup in Hall. by rewrite decide_False by eauto.
Qed.

Lemma uploaded_documents_are_all_extracted_witness :
  remoteCalls
    (App.runExtraction (λ _, friendlyWorld)
       (Upload.handleFileUpload friendlyWorld (λ _, None) (λ _, "u")
          (Some [mkFile "notes.txt" "text/plain" "hello"])
          (App.mkState App.initialFields "" [] false [] "" false None)).1).2
  ≠ [].
Proof.
  destruct (uploaded_documents_are_all_extracted friendlyWorld (λ _, None) (λ _, "u")
              [mkFile "notes.txt" "text/plain" "hello"] (λ _, friendlyWorld)
              (App.mkState App.initialFields "" [] false [] "" false None) eq_refl)
    as [_ Hlog].
  rewrite Hlog. vm_compute. discriminate.
Defined.
